(** * homebridge-fordpass: the platform of [src/index.ts]

    A shallow embedding of [FordPassPlatform]: the accessory registry
    ([configureAccessory], [addVehicles]), the status pass
    ([updateVehicles]), the bootstrap ([constructor],
    [didFinishLaunching]) and the four characteristic handlers that
    [configureAccessory] attaches to the lock and switch services.

    JavaScript objects are records, arrays are lists read with stdpp's
    lookup; [Array.prototype.forEach] is modelled with its index and
    length discipline so that a [splice] during the iteration behaves as
    it does in the source. *)

From Stdlib Require Import ZArith Ascii String.
From stdpp Require Import base list strings.

Open Scope string_scope.

(** ** Values of the host runtime and of the vehicle API *)

(** [Command] of [models/vehicle-info]: the closed set of remote operations. *)
Inductive Command := START | STOP | LOCK | UNLOCK.

(** [VehicleInfo] of [models/vehicle-info], restricted to the two fields
    the platform reads: [lockStatus.value] and [remoteStartStatus.value]
    (a number, possibly absent). *)
Record VehicleInfo := {
  lockStatus : string;
  remoteStartStatus : option Z
}.

(** [CharacteristicValue] of the host: a number, a boolean or a string. *)
Inductive CharacteristicValue :=
| VNumber (n : Z)
| VBoolean (b : bool)
| VString (s : string).

(** JavaScript truthiness of a characteristic value. *)
Definition truthy (value : CharacteristicValue) : bool :=
  match value with
  | VNumber n => negb (n =? 0)%Z
  | VBoolean b => b
  | VString s => negb (String.eqb s "")
  end.

(** [value === 0]: strict equality with the number zero. *)
Definition strict_eq_zero (value : CharacteristicValue) : bool :=
  match value with
  | VNumber n => (n =? 0)%Z
  | _ => false
  end.

(** [x || 0] on an optional number. *)
Definition or_zero (x : option Z) : Z :=
  match x with
  | Some n => if (n =? 0)%Z then 0%Z else n
  | None => 0%Z
  end.

Inductive LogLevel := Info | Debug | Error.
Definition LogEntry : Type := LogLevel * string.

(** The [Vehicle] handle of [fordpass]: identity and the cached snapshot
    [info].  Its two asynchronous methods are the collaborator's:
    [status()] resolves to a snapshot or to [undefined], which the
    operations below receive as an [option VehicleInfo]; the outcome of
    [issueCommand] is a [CommandOutcome]. *)
Record Vehicle := {
  name : string;
  vin : string;
  info : option VehicleInfo
}.

Definition Vehicle_new (n v : string) : Vehicle :=
  {| name := n; vin := v; info := None |}.

Definition set_info (i : option VehicleInfo) (v : Vehicle) : Vehicle :=
  {| name := name v; vin := vin v; info := i |}.

(** What [await vehicle.issueCommand(c)] does: the promise resolves,
    reporting whether the vehicle accepted the command, or it rejects and
    the [await] throws. *)
Inductive CommandOutcome :=
| Resolved (accepted : bool)
| Rejected.

(** The lock service with its two characteristics, and the switch service. *)
Record LockMechanism := {
  LockCurrentState : CharacteristicValue;
  LockTargetState : CharacteristicValue
}.

Record Switch := { On : CharacteristicValue }.

Definition set_LockCurrentState (v : CharacteristicValue) (s : LockMechanism) :=
  {| LockCurrentState := v; LockTargetState := LockTargetState s |}.

Definition set_LockTargetState (v : CharacteristicValue) (s : LockMechanism) :=
  {| LockCurrentState := LockCurrentState s; LockTargetState := v |}.

Definition set_On (v : CharacteristicValue) (s : Switch) : Switch := {| On := v |}.

(** ** The characteristic handlers of [configureAccessory]

    Each handler is a closure over [vehicle], [lockService] and the
    accessory's display name.  [Binding] is that captured environment;
    the handle it holds is the very object that [configureAccessory]
    pushes on [this.vehicles], so its [info] is whatever the last status
    pass stored. *)
Record Binding := {
  b_displayName : string;
  b_vehicle : Vehicle;
  b_lockService : LockMechanism;
  b_switchService : Switch
}.

Definition with_lockService (f : LockMechanism -> LockMechanism) (b : Binding) :=
  {| b_displayName := b_displayName b;
     b_vehicle := b_vehicle b;
     b_lockService := f (b_lockService b);
     b_switchService := b_switchService b |}.

(** How a handler invoked the host's callback: whether it passed an
    [Error] as first argument, and the value it passed, if any. *)
Record Callback := {
  cb_error : bool;
  cb_value : option CharacteristicValue
}.

(** [callback()], [callback(new Error(), undefined)], [callback(null, v)]. *)
Definition acknowledged : Callback := {| cb_error := false; cb_value := None |}.
Definition failed : Callback := {| cb_error := true; cb_value := None |}.
Definition answered (v : CharacteristicValue) : Callback :=
  {| cb_error := false; cb_value := Some v |}.

(** One run of a handler: what it logged, the commands it issued, the
    bound objects afterwards, and the callback invocation ([None] when
    the handler ended without calling back). *)
Record Run := {
  logged : list LogEntry;
  issued : list Command;
  after : Binding;
  called : option Callback
}.

(** [LockTargetState] SET, lines 71-80. *)
Definition lockTargetSet (outcome : CommandOutcome)
    (value : CharacteristicValue) (b : Binding) : Run :=
  let l := [(Debug, (if truthy value then "Locking" else "Unlocking")
                      ++ " " ++ b_displayName b)] in
  let command := if strict_eq_zero value then UNLOCK else LOCK in
  match outcome with
  | Rejected =>
      {| logged := l; issued := [command]; after := b; called := None |}
  | Resolved _ =>
      {| logged := l; issued := [command];
         after := with_lockService (set_LockCurrentState value) b;
         called := Some acknowledged |}
  end.

(** [LockTargetState] GET, lines 81-97. *)
Definition lockTargetGet (status : option VehicleInfo) (b : Binding) : Run :=
  match status with
  | None =>
      {| logged := [(Debug, "Cannot get information for "
                              ++ b_displayName b ++ " lock")];
         issued := []; after := b; called := Some failed |}
  | Some st =>
      let lockNumber := if String.eqb (lockStatus st) "LOCKED" then 1%Z else 0%Z in
      {| logged := []; issued := [];
         after := with_lockService (set_LockCurrentState (VNumber lockNumber)) b;
         called := Some (answered (VNumber lockNumber)) |}
  end.

(** [On] SET, lines 102-110. *)
Definition switchSet (outcome : CommandOutcome)
    (value : CharacteristicValue) (b : Binding) : Run :=
  let l := [(Debug, (if truthy value then "Starting" else "Stopping")
                      ++ " " ++ b_displayName b)] in
  let command := if truthy value then START else STOP in
  match outcome with
  | Rejected =>
      {| logged := l; issued := [command]; after := b; called := None |}
  | Resolved _ =>
      {| logged := l; issued := [command]; after := b; called := Some acknowledged |}
  end.

(** [On] GET, lines 111-126.  The level is read from [vehicle.info], the
    cached snapshot of the bound handle, not from [status]. *)
Definition switchGet (status : option VehicleInfo) (b : Binding) : Run :=
  match status with
  | None =>
      {| logged := [(Debug, "Cannot get information for "
                              ++ b_displayName b ++ " engine")];
         issued := []; after := b; called := Some failed |}
  | Some _ =>
      let engineStatus :=
        or_zero (info (b_vehicle b) ≫= remoteStartStatus) in
      let started := (0 <? engineStatus)%Z in
      {| logged := []; issued := []; after := b;
         called := Some (answered (VBoolean started)) |}
  end.

(** The listeners that [configureAccessory] attaches.  Both lock handlers
    hang off [getCharacteristic(LockTargetState)]; [LockCurrentState]
    gets no listener of its own. *)
Inductive Characteristic := CLockCurrentState | CLockTargetState | COn.

Definition getListener (c : Characteristic)
    : option (option VehicleInfo -> Binding -> Run) :=
  match c with
  | CLockTargetState => Some lockTargetGet
  | COn => Some switchGet
  | CLockCurrentState => None
  end.

Definition setListener (c : Characteristic)
    : option (CommandOutcome -> CharacteristicValue -> Binding -> Run) :=
  match c with
  | CLockTargetState => Some lockTargetSet
  | COn => Some switchSet
  | CLockCurrentState => None
  end.

Definition stored (c : Characteristic) (b : Binding) : CharacteristicValue :=
  match c with
  | CLockCurrentState => LockCurrentState (b_lockService b)
  | CLockTargetState => LockTargetState (b_lockService b)
  | COn => On (b_switchService b)
  end.

(** A read of characteristic [c] by the host: the GET listener runs when
    there is one; a characteristic without a listener answers with its
    stored value and nothing of the platform runs.  [status] is what
    [vehicle.status()] would resolve to at that moment. *)
Definition readCharacteristic (c : Characteristic)
    (status : option VehicleInfo) (b : Binding) : Run :=
  match getListener c with
  | Some listener => listener status b
  | None => {| logged := []; issued := []; after := b;
               called := Some (answered (stored c b)) |}
  end.

(** ** Strings: [String.prototype.toUpperCase] on ASCII text

    A VIN is seventeen ASCII letters and digits; on such text
    [toUpperCase] maps [a]-[z] to [A]-[Z] and keeps every other
    character. *)
Definition is_lower (c : ascii) : bool :=
  let n := nat_of_ascii c in ((97 <=? n) && (n <=? 122))%nat.

Definition upper_ascii (c : ascii) : ascii :=
  if is_lower c then ascii_of_nat (nat_of_ascii c - 32)%nat else c.

Fixpoint toUpperCase (s : string) : string :=
  match s with
  | EmptyString => EmptyString
  | String c s' => String (upper_ascii c) (toUpperCase s')
  end.

(** Two characters that are equal or are the two cases of one letter. *)
Definition same_letter (c d : ascii) : bool :=
  Ascii.eqb c d
  || (is_lower c && Ascii.eqb d (upper_ascii c))
  || (is_lower d && Ascii.eqb c (upper_ascii d)).

(** Two strings that differ only in letter case. *)
Fixpoint differ_only_in_case (s t : string) : bool :=
  match s, t with
  | EmptyString, EmptyString => true
  | String c s', String d t' => same_letter c d && differ_only_in_case s' t'
  | _, _ => false
  end.

(** ** JavaScript arrays *)

(** [Array.prototype.forEach] over an array that lives in the state [S]
    and that the callback may mutate: the length is read once, then each
    index below it is visited if the array still has it. *)
Section ForEach.
Context {S A : Type}.
Variable array : S -> list A.
Variable callback : A -> nat -> S -> S.

Fixpoint forEach_from (n k : nat) (s : S) : S :=
  match n with
  | O => s
  | Datatypes.S n' =>
      forEach_from n' (Datatypes.S k)
        match array s !! k with
        | Some x => callback x k s
        | None => s
        end
  end.

Definition forEach (s : S) : S := forEach_from (length (array s)) 0%nat s.
End ForEach.

(** [Array.prototype.slice(start, end)]: a fresh array, the receiver is
    left as it is. *)
Definition slice {A} (start end_ : nat) (l : list A) : list A :=
  take (end_ - start) (drop start l).

(** [Array.prototype.splice(index, 1)] on the receiver. *)
Definition splice1 {A} (index : nat) (l : list A) : list A := delete index l.

(** ** The platform *)

(** An entry of [config.vehicles]. *)
Record VehicleConfig := {
  c_name : string;
  c_vin : string
}.

Definition set_c_vin (v : string) (e : VehicleConfig) : VehicleConfig :=
  {| c_name := c_name e; c_vin := v |}.

(** [PlatformConfig]: each of the three fields may be missing. *)
Record PlatformConfig := {
  username : option string;
  password : option string;
  c_vehicles : option (list VehicleConfig)
}.

Definition set_c_vehicles (f : list VehicleConfig -> list VehicleConfig)
    (c : PlatformConfig) : PlatformConfig :=
  {| username := username c; password := password c;
     c_vehicles := f <$> c_vehicles c |}.

(** [!s] for an optional string: missing or empty. *)
Definition falsy (s : option string) : bool :=
  match s with
  | None => true
  | Some s => String.eqb s ""
  end.

(** [!a] for an optional array: only a missing one is falsy. *)
Definition absent {A} (a : option A) : bool :=
  match a with
  | None => true
  | Some _ => false
  end.

(** [PlatformAccessory] of the host.  [ref] is the identity of the
    object, which is what [indexOf] compares; the services are absent
    until [configureAccessory] creates them.  (The AccessoryInformation
    service, which the platform only writes, is left out.) *)
Record PlatformAccessory := {
  ref : nat;
  displayName : string;
  UUID : string;
  context_name : string;
  context_vin : string;
  lockService : option LockMechanism;
  switchService : option Switch
}.

(** [new Accessory(name, uuid)] as object number [r]. *)
Definition Accessory_new (r : nat) (n uuid : string) : PlatformAccessory :=
  {| ref := r; displayName := n; UUID := uuid;
     context_name := ""; context_vin := "";
     lockService := None; switchService := None |}.

Definition set_context (n v : string) (a : PlatformAccessory) :=
  {| ref := ref a; displayName := displayName a; UUID := UUID a;
     context_name := n; context_vin := v;
     lockService := lockService a; switchService := switchService a |}.

Definition set_services (l : option LockMechanism) (s : option Switch)
    (a : PlatformAccessory) :=
  {| ref := ref a; displayName := displayName a; UUID := UUID a;
     context_name := context_name a; context_vin := context_vin a;
     lockService := l; switchService := s |}.

(** Calls on [this.api], and the timers started with [setInterval]. *)
Inductive ApiCall :=
| OnDidFinishLaunching
| RegisterPlatformAccessories (a : PlatformAccessory)
| UnregisterPlatformAccessories (a : PlatformAccessory).

Inductive Task := Reauthenticate | UpdateVehicles.
Definition Interval : Type := Task * Z.

(** The fields of [FordPassPlatform], together with what the platform
    did to the host: the [api] calls and the [intervals] it started, in
    order.  [allocated] counts the accessory objects created so far. *)
Record FordPassPlatform := {
  log : list LogEntry;
  accessories : list PlatformAccessory;
  vehicles : list Vehicle;
  config : option PlatformConfig;
  api : list ApiCall;
  intervals : list Interval;
  allocated : nat
}.

Definition write_log (e : LogEntry) (p : FordPassPlatform) :=
  {| log := log p ++ [e]; accessories := accessories p;
     vehicles := vehicles p; config := config p; api := api p;
     intervals := intervals p; allocated := allocated p |}.

Definition set_accessories (f : list PlatformAccessory -> list PlatformAccessory)
    (p : FordPassPlatform) :=
  {| log := log p; accessories := f (accessories p);
     vehicles := vehicles p; config := config p; api := api p;
     intervals := intervals p; allocated := allocated p |}.

Definition set_vehicles (f : list Vehicle -> list Vehicle) (p : FordPassPlatform) :=
  {| log := log p; accessories := accessories p;
     vehicles := f (vehicles p); config := config p; api := api p;
     intervals := intervals p; allocated := allocated p |}.

Definition set_config_vehicles (f : list VehicleConfig -> list VehicleConfig)
    (p : FordPassPlatform) :=
  {| log := log p; accessories := accessories p;
     vehicles := vehicles p; config := set_c_vehicles f <$> config p;
     api := api p; intervals := intervals p; allocated := allocated p |}.

Definition call_api (c : ApiCall) (p : FordPassPlatform) :=
  {| log := log p; accessories := accessories p;
     vehicles := vehicles p; config := config p; api := api p ++ [c];
     intervals := intervals p; allocated := allocated p |}.

Definition setInterval (t : Task) (ms : Z) (p : FordPassPlatform) :=
  {| log := log p; accessories := accessories p;
     vehicles := vehicles p; config := config p; api := api p;
     intervals := intervals p ++ [(t, ms)]; allocated := allocated p |}.

Definition allocate (p : FordPassPlatform) :=
  {| log := log p; accessories := accessories p;
     vehicles := vehicles p; config := config p; api := api p;
     intervals := intervals p; allocated := Datatypes.S (allocated p) |}.

(** [this.config.vehicles], the empty array when it is missing. *)
Definition config_vehicles (p : FordPassPlatform) : list VehicleConfig :=
  default [] (config p ≫= c_vehicles).

(** [constructor], lines 33-49. *)
Definition constructor (cfg : option PlatformConfig) : FordPassPlatform :=
  let this := {| log := []; accessories := []; vehicles := [];
                 config := cfg; api := []; intervals := []; allocated := 0%nat |} in
  match cfg with
  | None => this
  | Some c =>
      if falsy (username c) || falsy (password c) || absent (c_vehicles c)
      then write_log
             (Error, "Please add a userame, password, and vehicles to your config.json")
             this
      else call_api OnDidFinishLaunching this
  end.

(** The accessory as [configureAccessory] leaves it: both services
    exist, lock current and target are [defaultState = 1], the switch is
    off. *)
Definition configured (accessory : PlatformAccessory) : PlatformAccessory :=
  let defaultState := VNumber 1 in
  set_services
    (Some {| LockCurrentState := defaultState; LockTargetState := defaultState |})
    (Some {| On := VBoolean false |})
    accessory.

(** [configureAccessory], lines 51-130: log, create the handle and the
    services, attach the listeners ([getListener], [setListener]), push
    the handle and the accessory. *)
Definition configureAccessory (accessory : PlatformAccessory)
    (p : FordPassPlatform) : FordPassPlatform :=
  let p := write_log (Info, "Configuring accessory " ++ displayName accessory) p in
  let vehicle := Vehicle_new (context_name accessory) (context_vin accessory) in
  let p := set_vehicles (λ l, (l ++ [vehicle])%list) p in
  set_accessories (λ l, (l ++ [configured accessory])%list) p.

(** The environment captured by the listeners of a freshly configured
    accessory. *)
Definition closure (accessory : PlatformAccessory) : Binding :=
  {| b_displayName := displayName accessory;
     b_vehicle := Vehicle_new (context_name accessory) (context_vin accessory);
     b_lockService := {| LockCurrentState := VNumber 1; LockTargetState := VNumber 1 |};
     b_switchService := {| On := VBoolean false |} |}.

(** [Array.prototype.find] and [indexOf] (identity of objects is [ref]). *)
Definition find_UUID (uuid : string) (l : list PlatformAccessory)
    : option (nat * PlatformAccessory) :=
  list_find (λ x, UUID x = uuid) l.

Definition find_vin (v : string) (l : list VehicleConfig)
    : option (nat * VehicleConfig) :=
  list_find (λ x, c_vin x = v) l.

Definition indexOf (accessory : PlatformAccessory) (l : list PlatformAccessory)
    : option nat :=
  fst <$> list_find (λ x, ref x = ref accessory) l.

(** Whether [api.on(DID_FINISH_LAUNCHING, ...)] was called. *)
Definition subscribed (p : FordPassPlatform) : bool :=
  existsb (λ c, match c with OnDidFinishLaunching => true | _ => false end) (api p).

Section Registry.
(** [hap.uuid.generate] of the host: some function of the string. *)
Variable generate : string -> string.

(** The callback of [vehicles.forEach] in [addVehicles], lines 156-176.
    It has no [await], so it runs to its end when it is called. *)
Definition addVehicle (vehicle : VehicleConfig) (k : nat)
    (p : FordPassPlatform) : FordPassPlatform :=
  let vehicle := set_c_vin (toUpperCase (c_vin vehicle)) vehicle in
  let p := set_config_vehicles (λ l, <[k := vehicle]> l) p in
  let uuid := generate (c_vin vehicle) in
  let accessory :=
    set_context (c_name vehicle) (c_vin vehicle)
      (Accessory_new (allocated p) (c_name vehicle) uuid) in
  let p := allocate p in
  match find_UUID uuid (accessories p) with
  | Some _ => p
  | None =>
      let p := write_log (Debug, "New vehicle found: " ++ c_name vehicle) p in
      let p := configureAccessory accessory p in
      call_api (RegisterPlatformAccessories (configured accessory)) p
  end.

(** The callback of [this.accessories.forEach], lines 179-188.  The
    [slice] on [this.vehicles] builds an array that is dropped. *)
Definition removeAccessory (accessory : PlatformAccessory) (k : nat)
    (p : FordPassPlatform) : FordPassPlatform :=
  match find_vin (context_vin accessory) (config_vehicles p) with
  | Some _ => p
  | None =>
      let p := call_api (UnregisterPlatformAccessories accessory) p in
      match indexOf accessory (accessories p) with
      | Some index =>
          let p := set_accessories (splice1 index) p in
          let _ := slice index 1 (vehicles p) in
          p
      | None => p
      end
  end.

(** [addVehicles], lines 154-189.  A missing [config.vehicles] makes
    the first [forEach] throw before anything is done. *)
Definition addVehicles (p : FordPassPlatform) : FordPassPlatform :=
  match config p ≫= c_vehicles with
  | None => p
  | Some _ =>
      let p := forEach config_vehicles addVehicle p in
      forEach accessories removeAccessory p
  end.

(** The projections of a cached snapshot, lines 195-205. *)
Definition lockNumber_of (i : option VehicleInfo) : Z :=
  match i with
  | Some st => if String.eqb (lockStatus st) "LOCKED" then 1%Z else 0%Z
  | None => 0%Z
  end.

Definition started_of (i : option VehicleInfo) : bool :=
  (0 <? or_zero (i ≫= remoteStartStatus))%Z.

(** What the pass pushes into an accessory, lines 209-214: nothing
    into a service that does not exist. *)
Definition project (lockNumber : Z) (started : bool)
    (accessory : PlatformAccessory) : PlatformAccessory :=
  set_services
    ((λ s, set_LockTargetState (VNumber lockNumber)
             (set_LockCurrentState (VNumber lockNumber) s)) <$> lockService accessory)
    (set_On (VBoolean started) <$> switchService accessory)
    accessory.

(** The callback of [this.vehicles.forEach] in [updateVehicles], lines
    192-215, for the handle at index [k], once its [status()] has
    resolved to [fetched k]. *)
Definition updateVehicle (fetched : nat -> option VehicleInfo)
    (vehicle : Vehicle) (k : nat) (p : FordPassPlatform) : FordPassPlatform :=
  let vehicle := set_info (fetched k) vehicle in
  let p := set_vehicles (λ l, <[k := vehicle]> l) p in
  let p := write_log (Debug, "Updating info for " ++ name vehicle) p in
  let lockNumber := lockNumber_of (info vehicle) in
  let started := started_of (info vehicle) in
  let uuid := generate (vin vehicle) in
  match find_UUID uuid (accessories p) with
  | Some (i, accessory) =>
      set_accessories (λ l, <[i := project lockNumber started accessory]> l) p
  | None => p
  end.

(** [updateVehicles], lines 191-216.  The callbacks are asynchronous
    and are not awaited; the pass is modelled by its continuations
    running in the order of the array, one of the orders the event
    loop allows.  A rejected continuation would stay inside its own
    promise; none is raised here since [status()] resolves. *)
Definition updateVehicles (fetched : nat -> option VehicleInfo)
    (p : FordPassPlatform) : FordPassPlatform :=
  forEach vehicles (updateVehicle fetched) p.

(** [didFinishLaunching], lines 132-152; [connected] is what
    [ford.auth()] resolved to.  When [addVehicles] throws (no
    [config.vehicles]) the hook ends there, after the first timer. *)
Definition didFinishLaunching (connected : bool)
    (fetched : nat -> option VehicleInfo) (p : FordPassPlatform)
    : FordPassPlatform :=
  if connected then
    let p := setInterval Reauthenticate 7080000 p in
    match config p ≫= c_vehicles with
    | None => p
    | Some _ =>
        let p := addVehicles p in
        let p := updateVehicles fetched p in
        setInterval UpdateVehicles 60000 p
    end
  else p.

(** The host finishing its launch: the hook runs if the constructor
    subscribed it with [api.on(DID_FINISH_LAUNCHING, ...)]. *)
Definition launch (connected : bool) (fetched : nat -> option VehicleInfo)
    (p : FordPassPlatform) : FordPassPlatform :=
  if subscribed p then didFinishLaunching connected fetched p else p.

End Registry.

(** ** Invariants of the loops *)

(** [a'] is [a] with, possibly, a projection pushed into it. *)
Definition pushed (a a' : PlatformAccessory) : Prop :=
  a' = a \/ exists n st, a' = project n st a.

(** The status pass started in [p], after the continuations of the
    handles below [j] ran and gave [s]: those handles hold what was
    fetched for them, the others are untouched; every accessory kept its
    place; and the accessory found for a handle holds the projection of
    the last handle below [j] that maps to the same UUID. *)
Definition pass_inv (generate : string -> string)
    (fetched : nat -> option VehicleInfo) (p : FordPassPlatform)
    (j : nat) (s : FordPassPlatform) : Prop :=
  length (vehicles s) = length (vehicles p) /\
  (forall k v, vehicles p !! k = Some v ->
     vehicles s !! k = Some (if decide (k < j) then set_info (fetched k) v else v)) /\
  Forall2 pushed (accessories p) (accessories s) /\
  (forall k v i a,
     vehicles p !! k = Some v -> k < j ->
     find_UUID (generate (vin v)) (accessories p) = Some (i, a) ->
     (forall k' v', k < k' < j -> vehicles p !! k' = Some v' ->
        generate (vin v') <> generate (vin v)) ->
     accessories s !! i
       = Some (project (lockNumber_of (fetched k)) (started_of (fetched k)) a)).

(** The entry as the addition loop leaves it in [config.vehicles], and
    the identifier the loop computes for it. *)
Definition normalised (e : VehicleConfig) : VehicleConfig :=
  set_c_vin (toUpperCase (c_vin e)) e.

Definition uuid_for (generate : string -> string) (e : VehicleConfig) : string :=
  generate (c_vin (normalised e)).

(** The addition loop started in [s0], after the entries below [k]: they
    are upper-cased in the configuration, each has an accessory with its
    identifier, what was appended carries the upper-cased VIN of one of
    them, and the identifiers stay free of duplicates if they were. *)
Definition add_inv (generate : string -> string) (s0 : FordPassPlatform)
    (k : nat) (s : FordPassPlatform) : Prop :=
  (forall j, config_vehicles s !! j
             = if decide (j < k) then normalised <$> config_vehicles s0 !! j
               else config_vehicles s0 !! j) /\
  (exists added,
     accessories s = (accessories s0 ++ added)%list /\
     Forall (λ a, exists e, e ∈ config_vehicles s0 /\
                            context_vin a = toUpperCase (c_vin e)) added) /\
  (forall j e, j < k -> config_vehicles s0 !! j = Some e ->
     exists a, a ∈ accessories s /\ UUID a = uuid_for generate e) /\
  (NoDup (UUID <$> accessories s0) -> NoDup (UUID <$> accessories s)).

(** Everything of the platform but the object counter. *)
Definition registry (s : FordPassPlatform) :=
  (log s, accessories s, vehicles s, config s, api s, intervals s).

(** A state in which configuration and registry agree: every entry is
    upper-cased and has an accessory with its identifier, and every
    accessory carries the VIN of an entry. *)
Definition settled (generate : string -> string) (s : FordPassPlatform) : Prop :=
  (forall e, e ∈ config_vehicles s ->
     toUpperCase (c_vin e) = c_vin e /\
     exists a, a ∈ accessories s /\ UUID a = generate (c_vin e)) /\
  (forall a, a ∈ accessories s ->
     exists e, e ∈ config_vehicles s /\ c_vin e = context_vin a).

(** ** Sample data used by the concrete evaluations *)

(** A stand-in for [hap.uuid.generate] that keeps the VIN readable. *)
Definition sample_generate (s : string) : string := "uuid:" ++ s.

Definition sample_accessory (r : nat) (n v : string) : PlatformAccessory :=
  configured (set_context n v (Accessory_new r n (sample_generate v))).

Definition mustang : PlatformAccessory := sample_accessory 0 "Mustang" "1FA6P8TH5L5100001".
Definition bronco : PlatformAccessory := sample_accessory 1 "Bronco" "1FMEE5DP7MLA00002".

Definition locked_running : VehicleInfo :=
  {| lockStatus := "LOCKED"; remoteStartStatus := Some 3%Z |}.

Definition unlocked_idle : VehicleInfo :=
  {| lockStatus := "UNLOCKED"; remoteStartStatus := Some 0%Z |}.

Definition sample_config (l : option (list VehicleConfig)) : PlatformConfig :=
  {| username := Some "driver@example.com"; password := Some "secret";
     c_vehicles := l |}.

(** The platform after the host handed back the cached accessories [l]. *)
Definition restored (cfg : PlatformConfig) (l : list PlatformAccessory)
    : FordPassPlatform :=
  foldl (λ p a, configureAccessory a p) (constructor (Some cfg)) l.

(** ** Further invariants of the registry *)

(** The handle [configureAccessory] creates for an accessory. *)
Definition handle_of (a : PlatformAccessory) : Vehicle :=
  Vehicle_new (context_name a) (context_vin a).

(** The accessory the addition loop creates, configures and registers
    for entry [e] as object number [r]. *)
Definition new_accessory (generate : string -> string) (r : nat)
    (e : VehicleConfig) : PlatformAccessory :=
  configured
    (set_context (c_name e) (toUpperCase (c_vin e))
       (Accessory_new r (c_name e) (generate (toUpperCase (c_vin e))))).

(** The two arrays are parallel: the handle at an index carries the name
    and the VIN of the accessory at that index. *)
Definition aligned (p : FordPassPlatform) : Prop :=
  Forall2 (λ a v, name v = context_name a /\ vin v = context_vin a)
          (accessories p) (vehicles p).

(** The accessories are distinct objects, all created before the next
    object number. *)
Definition distinct_objects (p : FordPassPlatform) : Prop :=
  NoDup (ref <$> accessories p) /\
  Forall (λ a, ref a < allocated p) (accessories p).

(** The registry as the platform itself builds it: parallel arrays,
    every identifier generated from the accessory's own VIN, no
    identifier twice. *)
Definition operational (generate : string -> string) (p : FordPassPlatform) : Prop :=
  aligned p /\
  Forall (λ a, UUID a = generate (context_vin a)) (accessories p) /\
  NoDup (UUID <$> accessories p).

(** What the addition loop started in [p] has done when it reaches
    state [s]: it appended [added] to the registry, a handle for each to
    the handles, and a registration call for each to the host calls. *)
Definition add_trace (generate : string -> string) (p s : FordPassPlatform)
    (added : list PlatformAccessory) : Prop :=
  accessories s = (accessories p ++ added)%list /\
  vehicles s = (vehicles p ++ (handle_of <$> added))%list /\
  api s = (api p ++ (RegisterPlatformAccessories <$> added))%list /\
  intervals s = intervals p /\
  allocated p <= allocated s /\
  NoDup (UUID <$> added) /\
  NoDup (ref <$> added) /\
  Forall (λ a, (UUID a ∉ UUID <$> accessories p) /\
               allocated p <= ref a < allocated s /\
               exists e, e ∈ config_vehicles p /\
                         a = new_accessory generate (ref a) e) added.

(** What the removal loop started in [s1] has done when it reaches
    state [s]: it unregistered [removed], each an accessory of [s1]
    whose VIN is not in the configuration, and spliced one accessory out
    of the registry per call; nothing else changed. *)
Definition remove_trace (s1 s : FordPassPlatform)
    (removed : list PlatformAccessory) : Prop :=
  vehicles s = vehicles s1 /\
  config s = config s1 /\
  intervals s = intervals s1 /\
  log s = log s1 /\
  allocated s = allocated s1 /\
  api s = (api s1 ++ (UnregisterPlatformAccessories <$> removed))%list /\
  Forall (λ a, a ∈ accessories s1 /\
               find_vin (context_vin a) (config_vehicles s1) = None) removed /\
  (accessories s `sublist_of` accessories s1) /\
  (length (accessories s) + length removed)%nat = length (accessories s1) /\
  (NoDup (ref <$> accessories s1) ->
   forall a, a ∈ accessories s1 -> a ∈ accessories s \/ a ∈ removed).

(** The status pass started in [p] never writes an accessory that no
    handle below [j] maps to. *)
Definition pass_untouched (generate : string -> string) (p : FordPassPlatform)
    (j : nat) (s : FordPassPlatform) : Prop :=
  forall i,
    (forall k v r, k < j -> vehicles p !! k = Some v ->
       find_UUID (generate (vin v)) (accessories p) = Some r -> r.1 <> i) ->
    accessories s !! i = accessories p !! i.

(** What the status pass leaves alone. *)
Definition pass_frame (p s : FordPassPlatform) : Prop :=
  config s = config p /\ api s = api p /\ intervals s = intervals p /\
  allocated s = allocated p.

(** A platform whose two cached accessories are objects 0 and 1, with
    the configuration listing the bronco only. *)
Definition showroom : FordPassPlatform :=
  {| log := [];
     accessories := [mustang; bronco];
     vehicles := [handle_of mustang; handle_of bronco];
     config := Some (sample_config
                 (Some [{| c_name := "Bronco"; c_vin := "1fmee5dp7mla00002" |}]));
     api := [OnDidFinishLaunching];
     intervals := [];
     allocated := 2 |}.

(** The showroom with the handle of the bronco missing. *)
Definition one_handle : FordPassPlatform := set_vehicles (take 1) showroom.

(** The showroom with an empty vehicle list in the configuration. *)
Definition empty_lot : FordPassPlatform := set_config_vehicles (λ _, []) showroom.

Open Scope list_scope.

Ltac split4 := split; [|split; [|split]].

(** ** The characteristic handlers *)

Lemma or_zero_default (x : option Z) : or_zero x = default 0%Z x.
Proof.
  destruct x as [n|]; simpl; [|reflexivity].
  destruct (Z.eqb_spec n 0); congruence.
Qed.

(** On a successful fetch the switch read answers from the cached
    snapshot of the handle, whatever the fetched snapshot says. *)
Lemma switchGet_cached (st : VehicleInfo) (b : Binding) :
  switchGet (Some st) b =
  {| logged := []; issued := []; after := b;
     called := Some (answered (VBoolean (started_of (info (b_vehicle b))))) |}.
Proof. reflexivity. Qed.

Lemma switchGet_failed (b : Binding) :
  called (switchGet None b) = Some failed /\ after (switchGet None b) = b.
Proof. split; reflexivity. Qed.

(** C3 (switch read): the fetched snapshot reports remote start level 3,
    yet the read of a freshly configured accessory answers [false],
    because the level is taken from the handle's cached [info] (still
    absent) and not from the snapshot just fetched. *)
Theorem switchGet_ignores_fetched_level :
  remoteStartStatus locked_running = Some 3%Z /\
  called (switchGet (Some locked_running) (closure mustang))
    = Some (answered (VBoolean false)).
Proof. split; reflexivity. Qed.

(** C4 as stated fails: the UNLOCK command resolves reporting a failure,
    and the lock write is acknowledged without error with the current
    state moved from 1 to the written 0; the switch write is
    acknowledged without error as well. *)
Lemma failed_command_is_acknowledged :
  called (lockTargetSet (Resolved false) (VNumber 0) (closure mustang))
    = Some acknowledged /\
  LockCurrentState (b_lockService (closure mustang)) = VNumber 1 /\
  LockCurrentState (b_lockService
      (after (lockTargetSet (Resolved false) (VNumber 0) (closure mustang))))
    = VNumber 0 /\
  called (switchSet (Resolved false) (VBoolean true) (closure mustang))
    = Some acknowledged.
Proof. repeat split. Qed.

(** C4 (amended): a write handler never passes an error to the callback.
    When the command's promise resolves, accepted or not, the write is
    acknowledged and the lock current state becomes the written value;
    when it rejects, the callback is not invoked and the bound services
    stay as they were. *)
Theorem write_handlers_ignore_command_result
    (outcome : CommandOutcome) (value : CharacteristicValue) (b : Binding) :
  (forall c, called (lockTargetSet outcome value b) = Some c -> cb_error c = false) /\
  (forall c, called (switchSet outcome value b) = Some c -> cb_error c = false) /\
  (forall accepted, outcome = Resolved accepted ->
     called (lockTargetSet outcome value b) = Some acknowledged /\
     called (switchSet outcome value b) = Some acknowledged /\
     LockCurrentState (b_lockService (after (lockTargetSet outcome value b))) = value /\
     after (switchSet outcome value b) = b) /\
  (outcome = Rejected ->
     called (lockTargetSet outcome value b) = None /\
     called (switchSet outcome value b) = None /\
     after (lockTargetSet outcome value b) = b /\
     after (switchSet outcome value b) = b).
Proof.
  destruct outcome as [accepted|]; simpl; repeat split;
    try (intros c [= <-]; reflexivity); try discriminate.
Qed.

Lemma write_handlers_ignore_command_result_witness :
  (forall c, called (lockTargetSet (Resolved false) (VNumber 1) (closure bronco))
               = Some c -> cb_error c = false) /\
  LockCurrentState (b_lockService
      (after (lockTargetSet (Resolved false) (VNumber 0) (closure bronco))))
    = VNumber 0.
Proof.
  split.
  - apply (write_handlers_ignore_command_result
             (Resolved false) (VNumber 1) (closure bronco)).
  - apply (write_handlers_ignore_command_result
             (Resolved false) (VNumber 0) (closure bronco)) with (accepted := false).
    reflexivity.
Defined.

(** A binding whose lock current state is 0: the mustang after an
    accepted unlock write. *)
Lemma unlocked_mustang_current :
  stored CLockCurrentState
    (after (lockTargetSet (Resolved true) (VNumber 0) (closure mustang)))
  = VNumber 0.
Proof. reflexivity. Qed.

(** C7 as stated fails: [LockCurrentState] has no GET listener, so a read
    of the lock current state fetches nothing; with the vehicle LOCKED
    and a stored current state of 0 the read answers 0, and with the
    fetch failing it still answers without error. *)
Lemma lock_current_read_is_not_live :
  getListener CLockCurrentState = None /\
  called (readCharacteristic CLockCurrentState (Some locked_running)
            (after (lockTargetSet (Resolved true) (VNumber 0) (closure mustang))))
    = Some (answered (VNumber 0)) /\
  called (readCharacteristic CLockCurrentState None (closure mustang))
    = Some (answered (VNumber 1)).
Proof. repeat split. Qed.

(** C7 (amended): the read that fetches is the read of the lock target
    state.  A failed fetch is answered with an error and changes
    nothing; a successful one yields 1 for LOCKED and 0 for any other
    lock status, stores that number in the lock current state and
    answers with it. *)
Theorem lock_target_read_is_live (status : option VehicleInfo) (b : Binding) :
  getListener CLockTargetState = Some lockTargetGet /\
  (status = None ->
     called (readCharacteristic CLockTargetState status b) = Some failed /\
     after (readCharacteristic CLockTargetState status b) = b) /\
  (forall st, status = Some st ->
     exists n : Z,
       (lockStatus st = "LOCKED" -> n = 1%Z) /\
       (lockStatus st <> "LOCKED" -> n = 0%Z) /\
       called (readCharacteristic CLockTargetState status b)
         = Some (answered (VNumber n)) /\
       LockCurrentState (b_lockService
           (after (readCharacteristic CLockTargetState status b))) = VNumber n /\
       LockTargetState (b_lockService
           (after (readCharacteristic CLockTargetState status b)))
         = LockTargetState (b_lockService b)).
Proof.
  split; [reflexivity|]. split.
  - intros ->. split; reflexivity.
  - intros st ->. unfold readCharacteristic; simpl.
    destruct (String.eqb_spec (lockStatus st) "LOCKED") as [E|E].
    + exists 1%Z. repeat split; congruence.
    + exists 0%Z. repeat split; congruence.
Qed.

Lemma lock_target_read_is_live_witness :
  called (readCharacteristic CLockTargetState None (closure mustang)) = Some failed /\
  exists n : Z,
    (lockStatus locked_running = "LOCKED" -> n = 1%Z) /\
    called (readCharacteristic CLockTargetState (Some locked_running) (closure mustang))
      = Some (answered (VNumber n)).
Proof.
  split.
  - apply (lock_target_read_is_live None (closure mustang)). reflexivity.
  - destruct (lock_target_read_is_live (Some locked_running) (closure mustang))
      as (_ & _ & H).
    destruct (H locked_running eq_refl) as (n & H1 & _ & H3 & _).
    exists n. split; assumption.
Defined.

(** C10 (lock target write): UNLOCK is issued exactly when the written
    value is the number 0, LOCK for every other value, and once the
    command's promise resolves the lock current state holds the written
    value as it came. *)
Theorem lockTargetSet_command_and_raw_value
    (outcome : CommandOutcome) (value : CharacteristicValue) (b : Binding) :
  (value = VNumber 0 -> issued (lockTargetSet outcome value b) = [UNLOCK]) /\
  (value <> VNumber 0 -> issued (lockTargetSet outcome value b) = [LOCK]) /\
  (forall accepted, outcome = Resolved accepted ->
     LockCurrentState (b_lockService (after (lockTargetSet outcome value b))) = value).
Proof.
  repeat split.
  - intros ->. destruct outcome; reflexivity.
  - intros Hv.
    assert (strict_eq_zero value = false) as E.
    { destruct value as [n| |]; simpl; try reflexivity.
      destruct (Z.eqb_spec n 0); [subst; contradiction|reflexivity]. }
    unfold lockTargetSet. rewrite E. destruct outcome; reflexivity.
  - intros accepted ->. reflexivity.
Qed.

Lemma lockTargetSet_command_and_raw_value_witness :
  issued (lockTargetSet (Resolved true) (VNumber 0) (closure mustang)) = [UNLOCK] /\
  issued (lockTargetSet (Resolved true) (VBoolean false) (closure mustang)) = [LOCK] /\
  LockCurrentState (b_lockService
      (after (lockTargetSet (Resolved true) (VNumber 7) (closure mustang))))
    = VNumber 7.
Proof.
  split; [|split].
  - apply (lockTargetSet_command_and_raw_value
             (Resolved true) (VNumber 0) (closure mustang)). reflexivity.
  - apply (lockTargetSet_command_and_raw_value
             (Resolved true) (VBoolean false) (closure mustang)). discriminate.
  - apply (lockTargetSet_command_and_raw_value
             (Resolved true) (VNumber 7) (closure mustang)) with (accepted := true).
    reflexivity.
Defined.

(** ** The constructor and the launch hook *)

(** C8 (fatal configuration check): with the user name, the password or
    the vehicle list missing, the constructor logs one error and does
    not subscribe the launch hook; when the host finishes launching
    nothing runs: no accessory, no host call, no timer. *)
Theorem constructor_missing_field_is_inert
    (generate : string -> string) (c : PlatformConfig)
    (connected : bool) (fetched : nat -> option VehicleInfo) :
  username c = None \/ password c = None \/ c_vehicles c = None ->
  log (constructor (Some c))
    = [(Error, "Please add a userame, password, and vehicles to your config.json")] /\
  subscribed (constructor (Some c)) = false /\
  launch generate connected fetched (constructor (Some c)) = constructor (Some c) /\
  accessories (launch generate connected fetched (constructor (Some c))) = [] /\
  api (launch generate connected fetched (constructor (Some c))) = [] /\
  intervals (launch generate connected fetched (constructor (Some c))) = [].
Proof.
  intros H.
  assert (falsy (username c) || falsy (password c) || absent (c_vehicles c) = true) as E.
  { destruct H as [H|[H|H]]; rewrite H; simpl;
      rewrite ?orb_true_r; reflexivity. }
  unfold launch, constructor. rewrite E. simpl. repeat split.
Qed.

Lemma constructor_missing_field_is_inert_witness :
  log (constructor (Some (sample_config None)))
    = [(Error, "Please add a userame, password, and vehicles to your config.json")] /\
  intervals (launch sample_generate true (λ _, Some locked_running)
               (constructor (Some (sample_config None)))) = [].
Proof.
  pose proof (constructor_missing_field_is_inert sample_generate
                (sample_config None) true (λ _, Some locked_running)) as H.
  destruct H as (H1 & _ & _ & _ & _ & H6).
  - right; right; reflexivity.
  - split; assumption.
Defined.

(** A complete configuration does start both timers. *)
Example launch_complete_config :
  intervals (launch sample_generate true (λ _, Some locked_running)
               (constructor (Some (sample_config (Some [])))))
  = [(Reauthenticate, 7080000%Z); (UpdateVehicles, 60000%Z)].
Proof. reflexivity. Qed.

(** ** Reconciliation: removals *)

(** C2 (removal from both collections): the host restored the mustang
    and the bronco, the configuration now lists the bronco only.  The
    run unregisters the mustang and splices it out of [accessories], but
    [vehicles] keeps all its handles: the collections differ in length
    and the accessory at index 0 is the bronco while the handle at index
    0 is still the mustang's. *)
Theorem addVehicles_removal_keeps_handle :
  let p := addVehicles sample_generate
             (restored (sample_config
                          (Some [{| c_name := "Bronco"; c_vin := "1FMEE5DP7MLA00002" |}]))
                       [mustang; bronco]) in
  accessories p = [bronco] /\
  vehicles p = [Vehicle_new "Mustang" "1FA6P8TH5L5100001";
                Vehicle_new "Bronco" "1FMEE5DP7MLA00002"] /\
  api p = [OnDidFinishLaunching; UnregisterPlatformAccessories mustang].
Proof. vm_compute. repeat split. Qed.

(** A removal also shifts the array under the running [forEach]: of two
    stale accessories in a row only the first is removed by one run. *)
Example addVehicles_skips_after_splice :
  accessories (addVehicles sample_generate
                 (restored (sample_config (Some [])) [mustang; bronco]))
  = [bronco].
Proof. vm_compute. reflexivity. Qed.

(** ** Reasoning about [forEach] *)

Section ForEachFacts.
Context {St A : Type}.
Variable array : St -> list A.
Variable callback : A -> nat -> St -> St.

(** An invariant indexed by the position of the iteration. *)
Lemma forEach_from_invariant (Inv : nat -> St -> Prop) :
  (forall k s, Inv k s ->
     Inv (S k) (match array s !! k with
                | Some x => callback x k s
                | None => s
                end)) ->
  forall n k s, Inv k s -> Inv (n + k)%nat (forEach_from array callback n k s).
Proof.
  intros Hstep n. induction n as [|n IH]; intros k s H; simpl; [exact H|].
  replace (S (n + k)) with (n + S k)%nat by lia.
  apply IH, Hstep, H.
Qed.

Lemma forEach_invariant (Inv : nat -> St -> Prop) (s : St) :
  (forall k s', Inv k s' ->
     Inv (S k) (match array s' !! k with
                | Some x => callback x k s'
                | None => s'
                end)) ->
  Inv 0%nat s -> Inv (length (array s)) (forEach array callback s).
Proof.
  intros Hstep H0. unfold forEach.
  replace (length (array s)) with (length (array s) + 0)%nat at 1 by lia.
  now apply forEach_from_invariant.
Qed.
End ForEachFacts.

(** ** The status pass *)

Lemma project_UUID n st a : UUID (project n st a) = UUID a.
Proof. reflexivity. Qed.

Lemma project_project n st n' st' a :
  project n st (project n' st' a) = project n st a.
Proof.
  destruct a as [r d u cn cv [l|] [s|]]; reflexivity.
Qed.

Lemma pushed_UUID a a' : pushed a a' -> UUID a' = UUID a.
Proof. intros [->|(n & st & ->)]; reflexivity. Qed.

Lemma pushed_project n st a a' : pushed a a' -> project n st a' = project n st a.
Proof. intros [->|(n' & st' & ->)]; [reflexivity|apply project_project]. Qed.

Lemma pushed_refl l : Forall2 pushed l l.
Proof. induction l; constructor; [left; reflexivity|assumption]. Qed.

(** [find] by UUID lands on the same index in an array whose elements
    kept their UUIDs. *)
Lemma find_UUID_pushed u l l' i a :
  Forall2 pushed l l' ->
  find_UUID u l = Some (i, a) ->
  exists a', find_UUID u l' = Some (i, a') /\ pushed a a'.
Proof.
  intros HF Hfind. unfold find_UUID in *.
  apply list_find_Some in Hfind as (Hi & Hu & Hmin).
  destruct (Forall2_lookup_l _ _ _ _ _ HF Hi) as (a' & Hi' & Hp).
  exists a'. split; [|exact Hp].
  apply list_find_Some. split; [exact Hi'|]. split.
  - rewrite (pushed_UUID _ _ Hp). exact Hu.
  - intros j y Hj Hlt Hy.
    destruct (Forall2_lookup_r _ _ _ _ _ HF Hj) as (x & Hx & Hpx).
    apply (Hmin j x Hx Hlt). rewrite <- (pushed_UUID _ _ Hpx). exact Hy.
Qed.

Section UpdatePass.
Variable generate : string -> string.
Variable fetched : nat -> option VehicleInfo.
Variable p : FordPassPlatform.

Lemma pass_inv_start : pass_inv generate fetched p 0 p.
Proof.
  repeat split.
  - intros k v Hk. rewrite Hk. destruct (decide (k < 0)); [lia|reflexivity].
  - apply pushed_refl.
  - intros; lia.
Qed.

Lemma pass_inv_step j s :
  pass_inv generate fetched p j s ->
  pass_inv generate fetched p (S j) (match vehicles s !! j with
                  | Some x => updateVehicle generate fetched x j s
                  | None => s
                  end).
Proof.
  intros (Hlen & Hveh & Hacc & Hlast).
  destruct (vehicles s !! j) as [x|] eqn:Hj.
  - (* the handle at [j] is still the original one *)
    assert (j < length (vehicles p)) as Hjlt.
    { rewrite <- Hlen. apply lookup_lt_Some with x, Hj. }
    destruct (lookup_lt_is_Some_2 (vehicles p) j Hjlt) as [v Hv].
    pose proof (Hveh j v Hv) as Hx. rewrite Hj in Hx.
    destruct (decide (j < j)); [lia|]. injection Hx as ->.
    unfold updateVehicle. simpl.
    destruct (find_UUID (generate (vin v)) (accessories s))
      as [[i' a'']|] eqn:Hfind; simpl.
    + apply list_find_Some in Hfind as Hfind'.
      destruct Hfind' as (Hi' & Hu' & _).
      destruct (Forall2_lookup_r _ _ _ _ _ Hacc Hi') as (a0 & Ha0 & Hp0).
      repeat split; simpl.
      * rewrite length_insert. exact Hlen.
      * intros k w Hk. destruct (decide (k = j)) as [->|Hne].
        -- rewrite list_lookup_insert_eq by (rewrite Hlen; exact Hjlt).
           destruct (decide (j < S j)); [|lia]. congruence.
        -- rewrite list_lookup_insert_ne by congruence.
           rewrite (Hveh k w Hk).
           destruct (decide (k < j)), (decide (k < S j)); try lia; reflexivity.
      * replace (accessories p) with (<[i' := a0]> (accessories p))
          by (apply list_insert_id, Ha0).
        apply Forall2_insert; [exact Hacc|].
        right. eexists _, _. apply pushed_project, Hp0.
      * intros k w i a Hk Hlt Hf Hlater.
        destruct (decide (k = j)) as [->|Hne].
        -- assert (w = v) as -> by congruence.
           destruct (find_UUID_pushed _ _ _ _ _ Hacc Hf) as (a1 & Hf1 & Hp1).
           rewrite Hf1 in Hfind.
           injection Hfind as <- <-.
           rewrite list_lookup_insert_eq by (apply lookup_lt_Some with a1, Hi').
           f_equal. apply pushed_project, Hp1.
        -- assert (generate (vin v) <> generate (vin w)) as Hdiff
             by (apply (Hlater j v); [lia|exact Hv]).
           assert (accessories s !! i
                   = Some (project (lockNumber_of (fetched k))
                                   (started_of (fetched k)) a)) as Hi.
           { apply (Hlast k w i a Hk); [lia|exact Hf|].
             intros k' v' Hk' Hv'. apply (Hlater k' v'); [lia|exact Hv']. }
           rewrite list_lookup_insert_ne; [exact Hi|].
           intros ->. rewrite Hi' in Hi. injection Hi as ->.
           apply list_find_Some in Hf as (_ & Hu & _).
           simpl in Hu'. congruence.
    + repeat split; simpl.
      * rewrite length_insert. exact Hlen.
      * intros k w Hk. destruct (decide (k = j)) as [->|Hne].
        -- rewrite list_lookup_insert_eq by (rewrite Hlen; exact Hjlt).
           destruct (decide (j < S j)); [|lia]. congruence.
        -- rewrite list_lookup_insert_ne by congruence.
           rewrite (Hveh k w Hk).
           destruct (decide (k < j)), (decide (k < S j)); try lia; reflexivity.
      * exact Hacc.
      * intros k w i a Hk Hlt Hf Hlater.
        destruct (decide (k = j)) as [->|Hne].
        -- assert (w = v) as -> by congruence.
           destruct (find_UUID_pushed _ _ _ _ _ Hacc Hf) as (a1 & Hf1 & _).
           congruence.
        -- apply (Hlast k w i a Hk); [lia|exact Hf|].
           intros k' v' Hk' Hv'. apply (Hlater k' v'); [lia|exact Hv'].
  - (* no handle at [j]: [j] is past the end *)
    apply lookup_ge_None in Hj.
    repeat split.
    + exact Hlen.
    + intros k w Hk. rewrite (Hveh k w Hk).
      apply lookup_lt_Some in Hk.
      destruct (decide (k < j)), (decide (k < S j)); try lia; reflexivity.
    + exact Hacc.
    + intros k w i a Hk Hlt Hf Hlater.
      apply (Hlast k w i a Hk); [apply lookup_lt_Some in Hk; lia|exact Hf|].
      intros k' v' Hk' Hv'. apply (Hlater k' v'); [lia|exact Hv'].
Qed.

Lemma pass_inv_end :
  pass_inv generate fetched p (length (vehicles p)) (updateVehicles generate fetched p).
Proof.
  unfold updateVehicles.
  apply (forEach_invariant vehicles (updateVehicle generate fetched)
           (pass_inv generate fetched p)).
  - intros k s. apply pass_inv_step.
  - apply pass_inv_start.
Qed.

(** Every handle ends the pass holding what was fetched for it. *)
Lemma updateVehicles_vehicles k v :
  vehicles p !! k = Some v ->
  vehicles (updateVehicles generate fetched p) !! k = Some (set_info (fetched k) v).
Proof.
  intros Hk. destruct pass_inv_end as (_ & Hveh & _).
  rewrite (Hveh k v Hk). apply lookup_lt_Some in Hk.
  destruct (decide (k < length (vehicles p))); [reflexivity|lia].
Qed.

(** The accessory found for a handle ends the pass with the projection
    of the last handle that maps to its UUID. *)
Lemma updateVehicles_accessory k v i a :
  vehicles p !! k = Some v ->
  find_UUID (generate (vin v)) (accessories p) = Some (i, a) ->
  (forall k' v', k < k' -> vehicles p !! k' = Some v' ->
     generate (vin v') <> generate (vin v)) ->
  accessories (updateVehicles generate fetched p) !! i
    = Some (project (lockNumber_of (fetched k)) (started_of (fetched k)) a).
Proof.
  intros Hk Hf Hlater. destruct pass_inv_end as (_ & _ & _ & Hlast).
  apply (Hlast k v i a Hk); [apply lookup_lt_Some with v, Hk|exact Hf|].
  intros k' v' [Hk' _]. apply Hlater, Hk'.
Qed.
End UpdatePass.

(** One continuation, in whatever state it runs: the handle at [k]
    receives what was fetched for it and the accessory found for it
    receives the projection.  This does not depend on the order in which
    the continuations of a pass complete. *)
Lemma updateVehicle_step generate fetched v k s i a :
  k < length (vehicles s) ->
  find_UUID (generate (vin v)) (accessories s) = Some (i, a) ->
  vehicles (updateVehicle generate fetched v k s) !! k
    = Some (set_info (fetched k) v) /\
  accessories (updateVehicle generate fetched v k s) !! i
    = Some (project (lockNumber_of (fetched k)) (started_of (fetched k)) a).
Proof.
  intros Hk Hf. unfold updateVehicle. simpl. rewrite Hf. simpl. split.
  - now apply list_lookup_insert_eq.
  - apply list_lookup_insert_eq.
    apply list_find_Some in Hf as (Hi & _). apply lookup_lt_Some with a, Hi.
Qed.

(** Below a bound, a decidable property that holds somewhere holds at a
    last index. *)
Lemma last_index (P : nat -> Prop) `{!forall k, Decision (P k)} (n k : nat) :
  P k -> k < n ->
  exists k', k <= k' < n /\ P k' /\ forall k'', k' < k'' < n -> ~ P k''.
Proof.
  induction n as [|n IH]; intros HP Hlt; [lia|].
  destruct (decide (P n)) as [Hn|Hn].
  - exists n. repeat split; [lia|lia|exact Hn|intros; lia].
  - assert (k < n) as Hk.
    { destruct (decide (k = n)) as [->|]; [contradiction|lia]. }
    destruct (IH HP Hk) as (k' & Hr & HP' & Hmax).
    exists k'. repeat split; [lia|lia|exact HP'|].
    intros k'' Hk''. destruct (decide (k'' = n)) as [->|]; [exact Hn|].
    apply Hmax. lia.
Qed.

Lemma lockNumber_of_cases (i : option VehicleInfo) :
  (lockNumber_of i = 1%Z /\ exists st, i = Some st /\ lockStatus st = "LOCKED") \/
  (lockNumber_of i = 0%Z /\ forall st, i = Some st -> lockStatus st <> "LOCKED").
Proof.
  destruct i as [st|]; simpl.
  - destruct (String.eqb_spec (lockStatus st) "LOCKED") as [E|E].
    + left. eauto.
    + right. split; [reflexivity|]. intros st' [= <-]. exact E.
  - right. split; [reflexivity|]. discriminate.
Qed.

(** C1 as stated fails: both handles hold a LOCKED, running snapshot
    from an earlier pass; in the next pass the fetch of the first fails.
    Its cached snapshot is gone afterwards, and its accessory was
    written all the same: lock current and target 0, switch off. *)
Lemma failed_fetch_clears_cache_and_projects :
  let before := updateVehicles sample_generate (λ _, Some locked_running)
                  (restored (sample_config (Some [])) [mustang; bronco]) in
  let pass := updateVehicles sample_generate
                (λ k, match k with O => None | _ => Some unlocked_idle end) before in
  info <$> vehicles before !! 0%nat = Some (Some locked_running) /\
  info <$> vehicles pass !! 0%nat = Some None /\
  lockService <$> accessories before !! 0%nat
    = Some (Some {| LockCurrentState := VNumber 1; LockTargetState := VNumber 1 |}) /\
  lockService <$> accessories pass !! 0%nat
    = Some (Some {| LockCurrentState := VNumber 0; LockTargetState := VNumber 0 |}) /\
  switchService <$> accessories before !! 0%nat = Some (Some {| On := VBoolean true |}) /\
  switchService <$> accessories pass !! 0%nat = Some (Some {| On := VBoolean false |}).
Proof. vm_compute. repeat split. Qed.

(** C1 (amended): the pass is a total function of the state, and for
    every handle it stores the result of the fetch as the cached
    snapshot, so a failed fetch leaves no snapshot.  The accessory found
    for the handle is written in both cases (when no later handle maps
    to the same UUID, this is what it holds after the pass): the
    projection of the fetched snapshot on success, lock 0 and switch off
    on failure. *)
Theorem updateVehicles_stores_and_projects
    (generate : string -> string) (fetched : nat -> option VehicleInfo)
    (p : FordPassPlatform) (k : nat) (v : Vehicle) :
  vehicles p !! k = Some v ->
  vehicles (updateVehicles generate fetched p) !! k = Some (set_info (fetched k) v) /\
  forall i a,
    find_UUID (generate (vin v)) (accessories p) = Some (i, a) ->
    (forall k' v', k < k' -> vehicles p !! k' = Some v' ->
       generate (vin v') <> generate (vin v)) ->
    (fetched k = None ->
       accessories (updateVehicles generate fetched p) !! i
         = Some (project 0 false a)) /\
    (forall st, fetched k = Some st ->
       accessories (updateVehicles generate fetched p) !! i
         = Some (project (if String.eqb (lockStatus st) "LOCKED" then 1 else 0)
                         (0 <? default 0 (remoteStartStatus st))%Z a)).
Proof.
  intros Hk. split; [apply updateVehicles_vehicles, Hk|].
  intros i a Hf Hlater.
  pose proof (updateVehicles_accessory generate fetched p k v i a Hk Hf Hlater) as H.
  split.
  - intros E. rewrite E in H. exact H.
  - intros st E. rewrite E in H. unfold started_of in H. simpl in H.
    rewrite or_zero_default in H. exact H.
Qed.

Lemma updateVehicles_stores_and_projects_witness :
  vehicles (updateVehicles sample_generate (λ _, None)
              (restored (sample_config (Some [])) [mustang])) !! 0%nat
  = Some (set_info None (Vehicle_new "Mustang" "1FA6P8TH5L5100001")).
Proof.
  apply (updateVehicles_stores_and_projects sample_generate (λ _, None)
           (restored (sample_config (Some [])) [mustang]) 0
           (Vehicle_new "Mustang" "1FA6P8TH5L5100001")).
  reflexivity.
Defined.

(** C9 (lock projection of the pass): a handle whose accessory is found
    with a lock service leaves that accessory, at the end of the pass,
    with lock current state and lock target state both equal to one
    number [n], whatever they held before; [n] is 1 if the cached lock
    status of the handle that wrote last (a handle with the same UUID,
    the handle itself when it is the only one) is LOCKED, and 0
    otherwise. *)
Theorem updateVehicles_sets_current_and_target
    (generate : string -> string) (fetched : nat -> option VehicleInfo)
    (p : FordPassPlatform) (k : nat) (v : Vehicle)
    (i : nat) (a : PlatformAccessory) (ls : LockMechanism) :
  vehicles p !! k = Some v ->
  find_UUID (generate (vin v)) (accessories p) = Some (i, a) ->
  lockService a = Some ls ->
  exists k' v' n,
    k <= k' /\
    vehicles (updateVehicles generate fetched p) !! k' = Some v' /\
    generate (vin v') = generate (vin v) /\
    ((n = 1%Z /\ exists st, info v' = Some st /\ lockStatus st = "LOCKED") \/
     (n = 0%Z /\ forall st, info v' = Some st -> lockStatus st <> "LOCKED")) /\
    accessories (updateVehicles generate fetched p) !! i ≫= lockService
      = Some {| LockCurrentState := VNumber n; LockTargetState := VNumber n |} /\
    ((forall k'' v'', k < k'' -> vehicles p !! k'' = Some v'' ->
        generate (vin v'') <> generate (vin v)) -> k' = k).
Proof.
  intros Hk Hf Hls.
  set (P := λ j, (λ w, generate (vin w)) <$> vehicles p !! j = Some (generate (vin v))).
  assert (P k) as HPk by (unfold P; rewrite Hk; reflexivity).
  destruct (last_index P (length (vehicles p)) k HPk (lookup_lt_Some _ _ _ Hk))
    as (k' & Hr & HP' & Hmax).
  unfold P in HP'. destruct (vehicles p !! k') as [w|] eqn:Hw; [|discriminate].
  injection HP' as Hu.
  assert (forall j w', k' < j -> vehicles p !! j = Some w' ->
            generate (vin w') <> generate (vin w)) as Hlater.
  { intros j w' Hj Hw' E. apply (Hmax j).
    - split; [exact Hj|apply lookup_lt_Some with w', Hw'].
    - unfold P. rewrite Hw'. simpl. congruence. }
  rewrite <- Hu in Hf.
  pose proof (updateVehicles_accessory generate fetched p k' w i a Hw Hf Hlater) as Hi.
  exists k', (set_info (fetched k') w), (lockNumber_of (fetched k')).
  split; [lia|]. split; [apply updateVehicles_vehicles, Hw|].
  split; [exact Hu|]. split; [apply lockNumber_of_cases|]. split.
  - rewrite Hi. simpl. rewrite Hls. reflexivity.
  - intros Honly. destruct (decide (k' = k)) as [|Hne]; [assumption|].
    exfalso. apply (Honly k' w); [lia|exact Hw|exact Hu].
Qed.

Lemma updateVehicles_sets_current_and_target_witness :
  exists k' v' n,
    (0 <= k')%nat /\
    vehicles (updateVehicles sample_generate (λ _, Some unlocked_idle)
                (restored (sample_config (Some [])) [mustang])) !! k' = Some v' /\
    sample_generate (vin v') = sample_generate "1FA6P8TH5L5100001" /\
    ((n = 1%Z /\ exists st, info v' = Some st /\ lockStatus st = "LOCKED") \/
     (n = 0%Z /\ forall st, info v' = Some st -> lockStatus st <> "LOCKED")) /\
    accessories (updateVehicles sample_generate (λ _, Some unlocked_idle)
                   (restored (sample_config (Some [])) [mustang])) !! 0%nat
      ≫= lockService
      = Some {| LockCurrentState := VNumber n; LockTargetState := VNumber n |}.
Proof.
  destruct (updateVehicles_sets_current_and_target sample_generate
              (λ _, Some unlocked_idle)
              (restored (sample_config (Some [])) [mustang]) 0
              (Vehicle_new "Mustang" "1FA6P8TH5L5100001") 0 mustang
              {| LockCurrentState := VNumber 1; LockTargetState := VNumber 1 |}
              eq_refl eq_refl eq_refl)
    as (k' & v' & n & H1 & H2 & H3 & H4 & H5 & _).
  exists k', v', n. repeat split; assumption.
Defined.

(** ** Upper-casing *)

Lemma upper_ascii_idempotent (c : ascii) :
  upper_ascii (upper_ascii c) = upper_ascii c.
Proof. destruct c as [[] [] [] [] [] [] [] []]; reflexivity. Qed.

Lemma toUpperCase_idempotent (s : string) :
  toUpperCase (toUpperCase s) = toUpperCase s.
Proof.
  induction s as [|c s IH]; simpl; [reflexivity|].
  now rewrite upper_ascii_idempotent, IH.
Qed.

Lemma same_letter_upper (c d : ascii) :
  same_letter c d = true -> upper_ascii c = upper_ascii d.
Proof.
  unfold same_letter. intros H.
  apply orb_true_iff in H as [H|H]; [apply orb_true_iff in H as [H|H]|].
  - apply Ascii.eqb_eq in H. now subst.
  - apply andb_true_iff in H as [_ H]. apply Ascii.eqb_eq in H. subst d.
    now rewrite upper_ascii_idempotent.
  - apply andb_true_iff in H as [_ H]. apply Ascii.eqb_eq in H. subst c.
    now rewrite upper_ascii_idempotent.
Qed.

Lemma differ_only_in_case_upper (s t : string) :
  differ_only_in_case s t = true -> toUpperCase s = toUpperCase t.
Proof.
  revert t. induction s as [|c s IH]; intros [|d t] H; simpl in *;
    try discriminate; [reflexivity|].
  apply andb_true_iff in H as [Hc Hs].
  now rewrite (same_letter_upper c d Hc), (IH t Hs).
Qed.

(** ** Reconciliation: additions *)

Lemma normalised_id (e : VehicleConfig) :
  toUpperCase (c_vin e) = c_vin e -> normalised e = e.
Proof. destruct e as [n v]; unfold normalised, set_c_vin; simpl. now intros ->. Qed.

Lemma config_vehicles_insert k e s :
  config_vehicles (set_config_vehicles (λ l, <[k := e]> l) s)
  = <[k := e]> (config_vehicles s).
Proof.
  unfold config_vehicles. destruct s as [lg ac ve [[u pw [l|]]|] ap iv al]; reflexivity.
Qed.

Lemma config_vehicles_allocate s :
  config_vehicles (allocate s) = config_vehicles s.
Proof. reflexivity. Qed.

Lemma config_insert_id k e s :
  config_vehicles s !! k = Some e ->
  config (set_config_vehicles (λ l, <[k := e]> l) s) = config s.
Proof.
  unfold config_vehicles.
  destruct s as [lg ac ve [[u pw [l|]]|] ap iv al]; simpl; try discriminate.
  intros H. unfold set_c_vehicles; simpl. now rewrite (list_insert_id _ _ _ H).
Qed.

Section Reconcile.
Variable generate : string -> string.

(** The step of the addition loop when the identifier is registered. *)
Lemma addVehicle_found e k s r :
  find_UUID (uuid_for generate e) (accessories s) = Some r ->
  addVehicle generate e k s
  = allocate (set_config_vehicles (λ l, <[k := normalised e]> l) s).
Proof.
  intros H. unfold addVehicle. simpl.
  unfold uuid_for, normalised in H. simpl in H. now rewrite H.
Qed.

(** The step when it is not: one accessory with that identifier is
    appended. *)
Lemma addVehicle_new e k s :
  find_UUID (uuid_for generate e) (accessories s) = None ->
  exists a,
    UUID a = uuid_for generate e /\
    context_vin a = toUpperCase (c_vin e) /\
    accessories (addVehicle generate e k s) = accessories s ++ [a] /\
    config_vehicles (addVehicle generate e k s)
      = <[k := normalised e]> (config_vehicles s).
Proof.
  intros H. unfold addVehicle. simpl.
  unfold uuid_for, normalised in H. simpl in H. rewrite H.
  exists (configured
            (set_context (c_name e) (toUpperCase (c_vin e))
               (Accessory_new (allocated s) (c_name e)
                  (generate (toUpperCase (c_vin e)))))).
  split; [reflexivity|]. split; [reflexivity|]. split; [reflexivity|].
  simpl. apply config_vehicles_insert.
Qed.

Lemma find_UUID_Some_elem u l r :
  find_UUID u l = Some r -> r.2 ∈ l /\ UUID r.2 = u.
Proof.
  destruct r as [i a]. intros H. apply list_find_Some in H as (Hi & Hu & _).
  split; [apply list_elem_of_lookup_2 with i, Hi|exact Hu].
Qed.

Lemma find_UUID_None_fresh u l :
  find_UUID u l = None -> u ∉ UUID <$> l.
Proof.
  intros H Hin. apply list_find_None in H.
  apply list_elem_of_fmap in Hin as (a & -> & Ha).
  rewrite Forall_forall in H. now apply (H a Ha).
Qed.

Variable s0 : FordPassPlatform.

Lemma add_inv_start : add_inv generate s0 0 s0.
Proof.
  split4.
  - intros j. destruct (decide (j < 0)); [lia|reflexivity].
  - exists []. split; [now rewrite app_nil_r|constructor].
  - intros; lia.
  - auto.
Qed.

Lemma add_inv_config k s e j :
  (forall j, config_vehicles s !! j
             = if decide (j < k) then normalised <$> config_vehicles s0 !! j
               else config_vehicles s0 !! j) ->
  config_vehicles s0 !! k = Some e ->
  <[k := normalised e]> (config_vehicles s) !! j
  = if decide (j < S k) then normalised <$> config_vehicles s0 !! j
    else config_vehicles s0 !! j.
Proof.
  intros Hcfg He. destruct (decide (j = k)) as [->|Hne].
  - rewrite list_lookup_insert_eq.
    + destruct (decide (k < S k)); [|lia]. now rewrite He.
    + apply lookup_lt_is_Some. rewrite Hcfg.
      destruct (decide (k < k)); [lia|]. rewrite He. eauto.
  - rewrite list_lookup_insert_ne by congruence. rewrite Hcfg.
    destruct (decide (j < k)), (decide (j < S k)); try lia; reflexivity.
Qed.

Lemma add_inv_step k s :
  add_inv generate s0 k s ->
  add_inv generate s0 (S k) (match config_vehicles s !! k with
                 | Some x => addVehicle generate x k s
                 | None => s
                 end).
Proof.
  intros (Hcfg & (added & Hacc & Hadded) & Hcover & Hnodup).
  pose proof (Hcfg k) as Hk. destruct (decide (k < k)); [lia|].
  destruct (config_vehicles s !! k) as [e|] eqn:He.
  - symmetry in Hk.
    destruct (find_UUID (uuid_for generate e) (accessories s)) as [r|] eqn:Hfind.
    + rewrite (addVehicle_found _ _ _ _ Hfind). split4.
      * intros j. rewrite config_vehicles_allocate, config_vehicles_insert.
        now apply add_inv_config.
      * exists added. split; [exact Hacc|exact Hadded].
      * intros j e' Hj He'. destruct (decide (j = k)) as [->|Hne].
        -- assert (e' = e) as -> by congruence.
           apply find_UUID_Some_elem in Hfind as [Hin Hu]. eauto.
        -- apply (Hcover j e'); [lia|exact He'].
      * exact Hnodup.
    + destruct (addVehicle_new e k s Hfind) as (a & Hu & Hvin & Ha & Hc).
      split4.
      * intros j. rewrite Hc. now apply add_inv_config.
      * exists (added ++ [a]). split.
        -- rewrite Ha, Hacc. now rewrite app_assoc.
        -- apply Forall_app. split; [exact Hadded|].
           constructor; [|constructor].
           exists e. split; [apply list_elem_of_lookup_2 with k, Hk|exact Hvin].
      * intros j e' Hj He'. rewrite Ha. destruct (decide (j = k)) as [->|Hne].
        -- assert (e' = e) as -> by congruence.
           exists a. split; [apply elem_of_app; right; now constructor|exact Hu].
        -- destruct (Hcover j e') as (a' & Hin & Hu'); [lia|exact He'|].
           exists a'. split; [apply elem_of_app; now left|exact Hu'].
      * intros Hnd. rewrite Ha, fmap_app. simpl.
        apply NoDup_app. split; [now apply Hnodup|]. split.
        -- intros u Hin Hu'. apply list_elem_of_singleton in Hu'. subst u.
           rewrite Hu in Hin. now apply (find_UUID_None_fresh _ _ Hfind).
        -- apply NoDup_singleton.
  - split4.
    + intros j. rewrite Hcfg.
      destruct (decide (j < k)), (decide (j < S k)); try lia; try reflexivity.
      assert (j = k) as -> by lia. now rewrite <- Hk.
    + exists added. split; assumption.
    + intros j e' Hj He'. destruct (decide (j = k)) as [->|Hne]; [congruence|].
      apply (Hcover j e'); [lia|exact He'].
    + exact Hnodup.
Qed.

Lemma add_inv_end :
  add_inv generate s0 (length (config_vehicles s0)) (forEach config_vehicles (addVehicle generate) s0).
Proof.
  apply (forEach_invariant config_vehicles (addVehicle generate)
           (add_inv generate s0)).
  - intros k s. apply add_inv_step.
  - apply add_inv_start.
Qed.
End Reconcile.

(** ** Reconciliation: the removal loop and the whole run *)

Lemma registry_fields s s' :
  registry s' = registry s ->
  accessories s' = accessories s /\ config_vehicles s' = config_vehicles s /\
  vehicles s' = vehicles s /\ api s' = api s.
Proof.
  unfold registry, config_vehicles. intros [= Hl Ha Hv Hc Hp Hi].
  now rewrite Ha, Hv, Hc, Hp.
Qed.

Lemma registry_allocate_insert_id k e s :
  config_vehicles s !! k = Some e ->
  registry (allocate (set_config_vehicles (λ l, <[k := e]> l) s)) = registry s.
Proof.
  intros H. pose proof (config_insert_id k e s H) as Hc.
  unfold registry. simpl in *. now rewrite Hc.
Qed.

Lemma removeAccessory_kept a k s :
  is_Some (find_vin (context_vin a) (config_vehicles s)) ->
  removeAccessory a k s = s.
Proof. intros [r H]. unfold removeAccessory. now rewrite H. Qed.

Lemma removeAccessory_sublist a k s :
  accessories (removeAccessory a k s) `sublist_of` accessories s.
Proof.
  unfold removeAccessory.
  destruct (find_vin (context_vin a) (config_vehicles s)); [reflexivity|].
  simpl. destruct (indexOf a (accessories s)) as [index|]; simpl; [|reflexivity].
  apply sublist_delete.
Qed.

(** A removal loop that finds every VIN in the configuration changes
    nothing. *)
Lemma remove_loop_id s :
  (forall a, a ∈ accessories s ->
     is_Some (find_vin (context_vin a) (config_vehicles s))) ->
  forEach accessories removeAccessory s = s.
Proof.
  intros H.
  apply (forEach_invariant accessories removeAccessory (λ _ s', s' = s));
    [|reflexivity].
  intros k s' ->. destruct (accessories s !! k) as [a|] eqn:Ha; [|reflexivity].
  apply removeAccessory_kept, H. apply list_elem_of_lookup_2 with k, Ha.
Qed.

Lemma remove_loop_sublist s :
  accessories (forEach accessories removeAccessory s) `sublist_of` accessories s.
Proof.
  apply (forEach_invariant accessories removeAccessory
           (λ _ s', accessories s' `sublist_of` accessories s)); [|reflexivity].
  intros k s' Hs'. destruct (accessories s' !! k) as [a|]; [|exact Hs'].
  etransitivity; [apply removeAccessory_sublist|exact Hs'].
Qed.

Lemma config_vehicles_missing s :
  config s ≫= c_vehicles = None -> config_vehicles s = [].
Proof. unfold config_vehicles. now intros ->. Qed.

Section Runs.
Variable generate : string -> string.

(** Identifiers without duplicates stay so through a run. *)
Lemma addVehicles_NoDup s :
  NoDup (UUID <$> accessories s) ->
  NoDup (UUID <$> accessories (addVehicles generate s)).
Proof.
  intros Hnd. unfold addVehicles.
  destruct (config s ≫= c_vehicles); [|exact Hnd].
  destruct (add_inv_end generate s) as (_ & _ & _ & Hadd).
  eapply sublist_NoDup; [apply Hadd, Hnd|apply fmap_sublist, remove_loop_sublist].
Qed.

(** A run on a settled state changes nothing but the object counter. *)
Lemma settled_run s :
  settled generate s -> registry (addVehicles generate s) = registry s.
Proof.
  intros [Hcfg Hacc]. unfold addVehicles.
  destruct (config s ≫= c_vehicles); [|reflexivity].
  assert (registry (forEach config_vehicles (addVehicle generate) s) = registry s)
    as Hadd.
  { apply (forEach_invariant config_vehicles (addVehicle generate)
             (λ _ s', registry s' = registry s)); [|reflexivity].
    intros k s' Hs'. destruct (registry_fields _ _ Hs') as (Ha & Hc & _).
    destruct (config_vehicles s' !! k) as [e|] eqn:He; [|exact Hs'].
    assert (e ∈ config_vehicles s) as Hin
      by (rewrite <- Hc; apply list_elem_of_lookup_2 with k, He).
    destruct (Hcfg e Hin) as (Hup & a & Hain & Hu).
    assert (is_Some (find_UUID (uuid_for generate e) (accessories s'))) as [r Hr].
    { rewrite Ha. apply list_find_elem_of with a; [exact Hain|].
      unfold uuid_for. now rewrite (normalised_id e Hup). }
    rewrite (addVehicle_found _ _ _ _ _ Hr), (normalised_id e Hup).
    now rewrite (registry_allocate_insert_id _ _ _ He). }
  destruct (registry_fields _ _ Hadd) as (Ha & Hc & _).
  rewrite remove_loop_id; [exact Hadd|].
  intros a Hin. rewrite Ha in Hin. destruct (Hacc a Hin) as (e & He & Hv).
  rewrite Hc. now apply list_find_elem_of with e.
Qed.

(** The first run from an empty registry upper-cases the configuration
    and ends settled. *)
Lemma first_run s :
  accessories s = [] ->
  config_vehicles (addVehicles generate s) = normalised <$> config_vehicles s /\
  settled generate (addVehicles generate s).
Proof.
  intros Hempty. unfold addVehicles.
  destruct (config s ≫= c_vehicles) as [l|] eqn:Hl.
  - destruct (add_inv_end generate s) as (Hcfg & (added & Hacc & Hadded) & Hcover & _).
    set (s1 := forEach config_vehicles (addVehicle generate) s) in *.
    assert (config_vehicles s1 = normalised <$> config_vehicles s) as Hc.
    { apply list_eq. intros j. rewrite Hcfg, list_lookup_fmap.
      destruct (decide (j < length (config_vehicles s))) as [|Hge]; [reflexivity|].
      rewrite (lookup_ge_None_2 (config_vehicles s) j) by lia. reflexivity. }
    rewrite Hempty in Hacc. simpl in Hacc.
    assert (forall a, a ∈ accessories s1 ->
              exists e, e ∈ config_vehicles s1 /\ c_vin e = context_vin a) as Hback.
    { intros a Hin. rewrite Hacc in Hin. rewrite Forall_forall in Hadded.
      destruct (Hadded a Hin) as (e & He & Hv).
      exists (normalised e). split; [|now rewrite Hv].
      rewrite Hc. now apply list_elem_of_fmap_2. }
    rewrite remove_loop_id.
    + split; [exact Hc|]. split; [|exact Hback].
      intros e' He'. rewrite Hc in He'.
      apply list_elem_of_fmap in He' as (e & -> & He).
      split; [apply toUpperCase_idempotent|].
      apply list_elem_of_lookup_1 in He as [j Hj].
      apply (Hcover j e); [apply lookup_lt_Some with e, Hj|exact Hj].
    + intros a Hin. destruct (Hback a Hin) as (e & He & Hv).
      now apply list_find_elem_of with e.
  - rewrite (config_vehicles_missing s Hl). split; [reflexivity|]. split.
    + intros e He. rewrite (config_vehicles_missing s Hl) in He.
      now apply elem_of_nil in He.
    + intros a Ha. rewrite Hempty in Ha. now apply elem_of_nil in Ha.
Qed.

(** C5 (idempotence from an empty registry): after a first run from a
    platform with no registered accessory, a second run with the same
    configuration calls the host neither to register nor to unregister
    anything, and leaves accessories, handles and configuration as the
    first run left them. *)
Theorem addVehicles_idempotent_from_empty (p : FordPassPlatform) :
  accessories p = [] ->
  api (addVehicles generate (addVehicles generate p))
    = api (addVehicles generate p) /\
  accessories (addVehicles generate (addVehicles generate p))
    = accessories (addVehicles generate p) /\
  vehicles (addVehicles generate (addVehicles generate p))
    = vehicles (addVehicles generate p) /\
  config_vehicles (addVehicles generate (addVehicles generate p))
    = config_vehicles (addVehicles generate p).
Proof.
  intros Hempty. destruct (first_run p Hempty) as [_ Hs].
  destruct (registry_fields _ _ (settled_run _ Hs)) as (Ha & Hc & Hv & Hp).
  auto.
Qed.

(** C6 (identity by upper-cased VIN): two entries whose VINs differ
    only in letter case get the same identifier from the loop; after a
    run no two accessories carry it, provided the registry had no
    duplicate identifier before; and from an empty registry the run
    ends with an accessory that carries it. *)
Theorem addVehicles_identity_ignores_case
    (p : FordPassPlatform) (e1 e2 : VehicleConfig) :
  e1 ∈ config_vehicles p -> e2 ∈ config_vehicles p ->
  differ_only_in_case (c_vin e1) (c_vin e2) = true ->
  uuid_for generate e1 = generate (toUpperCase (c_vin e1)) /\
  uuid_for generate e1 = uuid_for generate e2 /\
  (NoDup (UUID <$> accessories p) ->
   forall i j a b,
     accessories (addVehicles generate p) !! i = Some a ->
     accessories (addVehicles generate p) !! j = Some b ->
     UUID a = uuid_for generate e1 -> UUID b = uuid_for generate e2 -> i = j) /\
  (accessories p = [] ->
   exists i a,
     accessories (addVehicles generate p) !! i = Some a /\
     UUID a = uuid_for generate e1 /\ UUID a = uuid_for generate e2).
Proof.
  intros H1 H2 Hcase.
  assert (uuid_for generate e1 = uuid_for generate e2) as Hu.
  { unfold uuid_for, normalised. simpl.
    now rewrite (differ_only_in_case_upper _ _ Hcase). }
  split; [reflexivity|]. split; [exact Hu|]. split.
  - intros Hnd i j a b Hi Hj Ha Hb.
    apply (NoDup_lookup _ i j (UUID a) (addVehicles_NoDup p Hnd)).
    + now rewrite list_lookup_fmap, Hi.
    + rewrite list_lookup_fmap, Hj. simpl. congruence.
  - intros Hempty. destruct (first_run p Hempty) as [Hc [Hcfg _]].
    destruct (Hcfg (normalised e1)) as (_ & a & Hin & Ha).
    { rewrite Hc. now apply list_elem_of_fmap_2. }
    apply list_elem_of_lookup_1 in Hin as [i Hi].
    exists i, a. split; [exact Hi|]. split; [exact Ha|]. now rewrite <- Hu.
Qed.
End Runs.

Lemma addVehicles_idempotent_from_empty_witness :
  api (addVehicles sample_generate
         (addVehicles sample_generate
            (constructor (Some (sample_config
               (Some [{| c_name := "Mustang"; c_vin := "1fa6p8th5l5100001" |}]))))))
  = api (addVehicles sample_generate
           (constructor (Some (sample_config
              (Some [{| c_name := "Mustang"; c_vin := "1fa6p8th5l5100001" |}]))))).
Proof.
  apply (addVehicles_idempotent_from_empty sample_generate
           (constructor (Some (sample_config
              (Some [{| c_name := "Mustang"; c_vin := "1fa6p8th5l5100001" |}]))))).
  reflexivity.
Defined.

Lemma addVehicles_identity_ignores_case_witness :
  uuid_for sample_generate {| c_name := "Mustang"; c_vin := "1fa6p8th5l5100001" |}
  = uuid_for sample_generate {| c_name := "Pony"; c_vin := "1FA6P8TH5L5100001" |}.
Proof.
  apply (addVehicles_identity_ignores_case sample_generate
           (constructor (Some (sample_config
              (Some [{| c_name := "Mustang"; c_vin := "1fa6p8th5l5100001" |};
                     {| c_name := "Pony"; c_vin := "1FA6P8TH5L5100001" |}]))))
           {| c_name := "Mustang"; c_vin := "1fa6p8th5l5100001" |}
           {| c_name := "Pony"; c_vin := "1FA6P8TH5L5100001" |}).
  - apply list_elem_of_here.
  - apply list_elem_of_further, list_elem_of_here.
  - reflexivity.
Defined.

(** Case variants in one configuration yield one accessory. *)
Example addVehicles_case_variants_once :
  UUID <$> accessories
    (addVehicles sample_generate
       (constructor (Some (sample_config
          (Some [{| c_name := "Mustang"; c_vin := "1fa6p8th5l5100001" |};
                 {| c_name := "Pony"; c_vin := "1FA6P8TH5L5100001" |}])))))
  = ["uuid:1FA6P8TH5L5100001"].
Proof. vm_compute. reflexivity. Qed.

(** From a registry that is not empty a second run may remove what the
    first one skipped. *)
Example addVehicles_second_run_removes :
  length (accessories (addVehicles sample_generate
            (restored (sample_config (Some [])) [mustang; bronco]))) = 1%nat /\
  length (accessories (addVehicles sample_generate (addVehicles sample_generate
            (restored (sample_config (Some [])) [mustang; bronco])))) = 0%nat.
Proof. vm_compute. split; reflexivity. Qed.

(** ** Further properties of the characteristic handlers *)

(** X1 (lock write, then reads): once the command of a lock write has
    resolved, a read of the lock current state answers the written
    value, whatever the vehicle reports; the next read of the lock
    target state with a successful fetch replaces it by the vehicle's
    own state, 1 for LOCKED and 0 otherwise. *)
Theorem lock_write_then_reads
    (accepted : bool) (value : CharacteristicValue)
    (status : option VehicleInfo) (st : VehicleInfo) (b : Binding) :
  called (readCharacteristic CLockCurrentState status
            (after (lockTargetSet (Resolved accepted) value b)))
    = Some (answered value) /\
  called (readCharacteristic CLockTargetState (Some st)
            (after (lockTargetSet (Resolved accepted) value b)))
    = Some (answered (VNumber (lockNumber_of (Some st)))) /\
  called (readCharacteristic CLockCurrentState status
            (after (readCharacteristic CLockTargetState (Some st)
                      (after (lockTargetSet (Resolved accepted) value b)))))
    = Some (answered (VNumber (lockNumber_of (Some st)))).
Proof. repeat split. Qed.

(** X2 (what the listeners leave alone): a read issues no command, a
    write issues exactly one (LOCK or UNLOCK from the lock, START or
    STOP from the switch), and no listener changes the bound handle, the
    lock target state or the switch value. *)
Theorem listeners_frame
    (c : Characteristic) (status : option VehicleInfo)
    (outcome : CommandOutcome) (value : CharacteristicValue) (b : Binding) :
  (issued (readCharacteristic c status b) = [] /\
   b_vehicle (after (readCharacteristic c status b)) = b_vehicle b /\
   stored CLockTargetState (after (readCharacteristic c status b))
     = stored CLockTargetState b /\
   stored COn (after (readCharacteristic c status b)) = stored COn b) /\
  ((issued (lockTargetSet outcome value b) = [LOCK] \/
    issued (lockTargetSet outcome value b) = [UNLOCK]) /\
   b_vehicle (after (lockTargetSet outcome value b)) = b_vehicle b /\
   stored CLockTargetState (after (lockTargetSet outcome value b))
     = stored CLockTargetState b /\
   stored COn (after (lockTargetSet outcome value b)) = stored COn b) /\
  ((issued (switchSet outcome value b) = [START] \/
    issued (switchSet outcome value b) = [STOP]) /\
   after (switchSet outcome value b) = b).
Proof.
  split; [|split].
  - destruct c, status; repeat split.
  - unfold lockTargetSet. destruct (strict_eq_zero value), outcome;
      repeat split; auto.
  - unfold switchSet. destruct (truthy value), outcome; repeat split; auto.
Qed.


(** ** Further properties of the constructor *)

Lemma falsy_false (s : option string) :
  falsy s = false <-> exists u, s = Some u /\ u <> "".
Proof.
  destruct s as [u|]; simpl.
  - destruct (String.eqb_spec u "") as [E|E]; split.
    + discriminate.
    + intros (u' & [= <-] & Hne). contradiction.
    + intros _. exists u. split; [reflexivity|exact E].
    + reflexivity.
  - split; [discriminate|]. intros (u & H & _). discriminate.
Qed.

Lemma absent_false {A} (a : option A) : absent a = false <-> exists l, a = Some l.
Proof.
  destruct a as [l|]; simpl; split; try discriminate; eauto.
  intros [l H]. discriminate.
Qed.

(** X4 (when the platform starts): the launch hook is subscribed exactly
    when a configuration is given with a non-empty user name, a
    non-empty password and a vehicle list (an empty list counts); the
    error is logged exactly when a configuration is given and the hook
    is not subscribed, so a platform without any configuration stays
    silent. *)
Theorem constructor_subscribes_iff (cfg : option PlatformConfig) :
  (subscribed (constructor cfg) = true <->
   exists c u pw l,
     cfg = Some c /\ username c = Some u /\ u <> "" /\
     password c = Some pw /\ pw <> "" /\ c_vehicles c = Some l) /\
  (log (constructor cfg) <> [] <->
   exists c, cfg = Some c /\ subscribed (constructor cfg) = false) /\
  accessories (constructor cfg) = [] /\ vehicles (constructor cfg) = [] /\
  intervals (constructor cfg) = [].
Proof.
  destruct cfg as [c|]; unfold constructor.
  - destruct (falsy (username c) || falsy (password c) || absent (c_vehicles c))
      eqn:E.
    + split; [|split; [|repeat split]].
      * split; [discriminate|].
        intros (c' & u & pw & l & [= <-] & Hu & Hune & Hp & Hpne & Hl).
        assert (falsy (username c) = false) as E1
          by (apply falsy_false; eauto).
        assert (falsy (password c) = false) as E2
          by (apply falsy_false; eauto).
        assert (absent (c_vehicles c) = false) as E3
          by (apply absent_false; eauto).
        rewrite E1, E2, E3 in E. discriminate.
      * split; [intros _; exists c; split; reflexivity|].
        intros _. discriminate.
    + apply orb_false_iff in E as [E E3]. apply orb_false_iff in E as [E1 E2].
      apply falsy_false in E1 as (u & Hu & Hune).
      apply falsy_false in E2 as (pw & Hp & Hpne).
      apply absent_false in E3 as (l & Hl).
      split; [|split; [|repeat split]].
      * split; [|reflexivity]. intros _. exists c, u, pw, l. auto 10.
      * split; [intros H; now contradiction H|].
        intros (c' & _ & H). discriminate.
  - split; [|split; [|repeat split]].
    + split; [discriminate|]. intros (c & u & pw & l & H & _). discriminate.
    + split; [intros H; now contradiction H|]. intros (c & H & _). discriminate.
Qed.

(** ** Further properties of [configureAccessory] *)

Lemma handle_of_configured a : handle_of (configured a) = handle_of a.
Proof. reflexivity. Qed.

Lemma aligned_snoc p a :
  aligned p -> aligned (configureAccessory a p).
Proof.
  unfold aligned, configureAccessory. simpl. intros H.
  apply Forall2_app; [exact H|]. constructor; [|constructor]. split; reflexivity.
Qed.

(** X5 (restoring the cache): handing a list of cached accessories to
    [configureAccessory], one after the other, appends them to the
    registry in order and one handle for each, at the same index, with
    the accessory's name and VIN and no cached snapshot; each accessory
    restarts with lock current and target 1 and the switch off, whatever
    it held; parallel arrays stay parallel and the host is not called. *)
Theorem configureAccessory_restores
    (l : list PlatformAccessory) (p : FordPassPlatform) :
  accessories (foldl (λ p a, configureAccessory a p) p l)
    = accessories p ++ (configured <$> l) /\
  vehicles (foldl (λ p a, configureAccessory a p) p l)
    = vehicles p ++ (handle_of <$> l) /\
  Forall (λ a, lockService a
                 = Some {| LockCurrentState := VNumber 1;
                           LockTargetState := VNumber 1 |} /\
               switchService a = Some {| On := VBoolean false |})
         (configured <$> l) /\
  Forall (λ v, info v = None) (handle_of <$> l) /\
  (aligned p -> aligned (foldl (λ p a, configureAccessory a p) p l)) /\
  api (foldl (λ p a, configureAccessory a p) p l) = api p /\
  config (foldl (λ p a, configureAccessory a p) p l) = config p.
Proof.
  revert p. induction l as [|a l IH]; intros p.
  - simpl. rewrite !app_nil_r. repeat split; auto.
  - destruct (IH (configureAccessory a p)) as (Ha & Hv & Hd & Hi & Hal & Hapi & Hc).
    rewrite !fmap_cons.
    change (foldl (λ p a, configureAccessory a p) p (a :: l))
      with (foldl (λ p a, configureAccessory a p) (configureAccessory a p) l).
    rewrite Ha, Hv, Hapi, Hc. simpl. rewrite <- !app_assoc. simpl.
    split; [reflexivity|]. split; [reflexivity|]. split; [|split; [|split]].
    + constructor; [split; reflexivity|exact Hd].
    + constructor; [reflexivity|exact Hi].
    + intros H. apply Hal, aligned_snoc, H.
    + split; reflexivity.
Qed.

(** ** Further properties of reconciliation *)

Lemma indexOf_found (l : list PlatformAccessory) k a :
  l !! k = Some a ->
  exists index a', indexOf a l = Some index /\ l !! index = Some a' /\
                   ref a' = ref a /\ index <= k.
Proof.
  intros Hk. unfold indexOf.
  destruct (list_find_elem_of (λ x, ref x = ref a) l a) as [[i a'] Hf].
  - apply list_elem_of_lookup_2 with k, Hk.
  - reflexivity.
  - rewrite Hf. simpl. apply list_find_Some in Hf as (Hi & Hr & Hmin).
    exists i, a'. repeat split; auto.
    destruct (decide (i <= k)) as [|Hgt]; [assumption|].
    exfalso. apply (Hmin k a Hk); [lia|reflexivity].
Qed.

Lemma NoDup_ref_lookup (l : list PlatformAccessory) i j a b :
  NoDup (ref <$> l) -> l !! i = Some a -> l !! j = Some b -> ref a = ref b ->
  i = j /\ a = b.
Proof.
  intros Hnd Hi Hj Hr.
  assert (i = j) as ->.
  { apply (NoDup_lookup _ i j (ref a) Hnd); rewrite list_lookup_fmap.
    - now rewrite Hi.
    - rewrite Hj. simpl. now rewrite Hr. }
  split; [reflexivity|congruence].
Qed.

Lemma elem_of_delete_or {A} (l : list A) k a x :
  l !! k = Some a -> x ∈ l -> x ∈ delete k l \/ x = a.
Proof.
  intros Hk Hx. rewrite <- (take_drop_middle l k a Hk) in Hx.
  rewrite delete_take_drop.
  apply elem_of_app in Hx as [Hx|Hx].
  - left. apply elem_of_app. now left.
  - apply elem_of_cons in Hx as [->|Hx]; [now right|].
    left. apply elem_of_app. now right.
Qed.

Lemma find_vin_None v l :
  find_vin v l = None <-> forall e, e ∈ l -> c_vin e <> v.
Proof.
  unfold find_vin. rewrite list_find_None, Forall_forall. reflexivity.
Qed.

Section Traces.
Variable generate : string -> string.

Lemma addVehicle_found_fields e k s r :
  find_UUID (uuid_for generate e) (accessories s) = Some r ->
  accessories (addVehicle generate e k s) = accessories s /\
  vehicles (addVehicle generate e k s) = vehicles s /\
  api (addVehicle generate e k s) = api s /\
  intervals (addVehicle generate e k s) = intervals s /\
  allocated (addVehicle generate e k s) = S (allocated s).
Proof.
  intros H. rewrite (addVehicle_found generate e k s r H). repeat split.
Qed.

Lemma addVehicle_new_fields e k s :
  find_UUID (uuid_for generate e) (accessories s) = None ->
  accessories (addVehicle generate e k s)
    = accessories s ++ [new_accessory generate (allocated s) e] /\
  vehicles (addVehicle generate e k s)
    = vehicles s ++ [handle_of (new_accessory generate (allocated s) e)] /\
  api (addVehicle generate e k s)
    = api s ++ [RegisterPlatformAccessories (new_accessory generate (allocated s) e)] /\
  intervals (addVehicle generate e k s) = intervals s /\
  allocated (addVehicle generate e k s) = S (allocated s).
Proof.
  intros H. unfold addVehicle. simpl.
  unfold uuid_for, normalised in H. simpl in H. rewrite H.
  repeat split.
Qed.

Variable p : FordPassPlatform.

(** The addition loop keeps its trace. *)
Lemma add_trace_step k s :
  add_inv generate p k s /\ (exists added, add_trace generate p s added) ->
  let s' := match config_vehicles s !! k with
            | Some x => addVehicle generate x k s
            | None => s
            end in
  add_inv generate p (S k) s' /\ (exists added, add_trace generate p s' added).
Proof.
  intros [Hinv (added & Ha & Hv & Hapi & Hiv & Hal & Hnu & Hnr & Hall)].
  split; [now apply add_inv_step|].
  destruct Hinv as (Hcfg & _).
  pose proof (Hcfg k) as Hk. destruct (decide (k < k)); [lia|].
  destruct (config_vehicles s !! k) as [e|] eqn:He; simpl;
    [|exists added; repeat split; assumption].
  symmetry in Hk. apply list_elem_of_lookup_2 in Hk as Hin.
  destruct (find_UUID (uuid_for generate e) (accessories s)) as [r|] eqn:Hfind.
  - destruct (addVehicle_found_fields e k s r Hfind) as (Ea & Ev & Ep & Ei & El).
    exists added. unfold add_trace. rewrite Ea, Ev, Ep, Ei, El.
    repeat split; try assumption; [lia|].
    eapply Forall_impl; [exact Hall|]. simpl.
    intros a (H1 & H2 & H3). repeat split; [exact H1|lia|lia|exact H3].
  - destruct (addVehicle_new_fields e k s Hfind) as (Ea & Ev & Ep & Ei & El).
    pose proof (find_UUID_None_fresh (uuid_for generate e) _ Hfind) as Hfresh.
    rewrite Ha, fmap_app in Hfresh.
    exists (added ++ [new_accessory generate (allocated s) e]).
    unfold add_trace. rewrite Ea, Ev, Ep, Ei, El, Ha, Hv, Hapi, !fmap_app.
    simpl. rewrite <- !app_assoc.
    split; [reflexivity|]. split; [reflexivity|]. split; [reflexivity|].
    split; [exact Hiv|]. split; [lia|]. split; [|split].
    + apply NoDup_app. split; [exact Hnu|]. split; [|apply NoDup_singleton].
      intros u Hu Hu'. apply list_elem_of_singleton in Hu'. subst u.
      apply Hfresh, elem_of_app. now right.
    + apply NoDup_app. split; [exact Hnr|]. split; [|apply NoDup_singleton].
      intros r Hr Hr'. apply list_elem_of_singleton in Hr'. subst r.
      apply list_elem_of_fmap in Hr as (a & Hra & Hain).
      rewrite Forall_forall in Hall. destruct (Hall a Hain) as (_ & Hlt & _).
      simpl in Hra. lia.
    + apply Forall_app. split.
      * eapply Forall_impl; [exact Hall|]. simpl.
        intros a (H1 & H2 & H3). repeat split; [exact H1|lia|lia|exact H3].
      * constructor; [|constructor]. repeat split.
        -- intros Hu. apply Hfresh, elem_of_app. now left.
        -- simpl. lia.
        -- simpl. lia.
        -- exists e. split; [exact Hin|reflexivity].
Qed.

Lemma add_trace_end :
  exists added,
    add_trace generate p (forEach config_vehicles (addVehicle generate) p) added.
Proof.
  apply (forEach_invariant config_vehicles (addVehicle generate)
           (λ k s, add_inv generate p k s /\
                   exists added, add_trace generate p s added)).
  - intros k s. apply add_trace_step.
  - split; [apply add_inv_start|]. exists []. unfold add_trace. simpl.
    rewrite !app_nil_r. repeat split; auto using NoDup_nil_2.
Qed.
End Traces.

Lemma remove_trace_start s1 : remove_trace s1 s1 [].
Proof.
  unfold remove_trace. simpl. rewrite app_nil_r.
  repeat split; auto.
Qed.

(** The removal loop keeps its trace. *)
Lemma remove_trace_step s1 k s :
  (exists removed, remove_trace s1 s removed) ->
  exists removed,
    remove_trace s1 (match accessories s !! k with
                     | Some x => removeAccessory x k s
                     | None => s
                     end) removed.
Proof.
  intros (removed & Hv & Hc & Hiv & Hlog & Hal & Hapi & Hall & Hsub & Hlen & Hnd).
  destruct (accessories s !! k) as [a|] eqn:Hk;
    [|exists removed; repeat split; assumption].
  unfold removeAccessory.
  destruct (find_vin (context_vin a) (config_vehicles s)) as [r|] eqn:Hfind;
    [exists removed; repeat split; assumption|].
  destruct (indexOf_found (accessories s) k a Hk)
    as (index & a' & Hidx & Hi & Href & Hle).
  simpl. rewrite Hidx. simpl.
  exists (removed ++ [a]). unfold remove_trace. simpl.
  split; [exact Hv|]. split; [exact Hc|]. split; [exact Hiv|].
  split; [exact Hlog|]. split; [exact Hal|]. split.
  { rewrite Hapi, fmap_app, <- app_assoc. reflexivity. }
  split.
  { apply Forall_app. split; [exact Hall|]. constructor; [|constructor]. split.
    - apply elem_of_sublist with (accessories s); [|exact Hsub].
      apply list_elem_of_lookup_2 with k, Hk.
    - unfold config_vehicles in *. rewrite <- Hc. exact Hfind. }
  split.
  { unfold splice1. etransitivity; [apply sublist_delete|exact Hsub]. }
  split.
  { unfold splice1. rewrite length_delete by eauto. rewrite length_app. simpl.
    apply lookup_lt_Some in Hi. lia. }
  intros Hnodup x Hx.
  assert (NoDup (ref <$> accessories s)) as Hnds
    by (eapply sublist_NoDup; [exact Hnodup|apply fmap_sublist, Hsub]).
  destruct (NoDup_ref_lookup _ _ _ _ _ Hnds Hi Hk Href) as [-> ->].
  destruct (Hnd Hnodup x Hx) as [Hin|Hin].
  - destruct (elem_of_delete_or _ _ _ x Hk Hin) as [Hd| ->].
    + now left.
    + right. apply elem_of_app. right. now constructor.
  - right. apply elem_of_app. now left.
Qed.

Lemma remove_trace_end s1 :
  exists removed,
    remove_trace s1 (forEach accessories removeAccessory s1) removed.
Proof.
  apply (forEach_invariant accessories removeAccessory
           (λ _ s, exists removed, remove_trace s1 s removed)).
  - intros k s. apply remove_trace_step.
  - exists []. apply remove_trace_start.
Qed.


Lemma add_loop_config generate p :
  config_vehicles (forEach config_vehicles (addVehicle generate) p)
  = normalised <$> config_vehicles p.
Proof.
  destruct (add_inv_end generate p) as (Hcfg & _).
  apply list_eq. intros j. rewrite Hcfg, list_lookup_fmap.
  destruct (decide (j < length (config_vehicles p))) as [|Hge]; [reflexivity|].
  rewrite (lookup_ge_None_2 (config_vehicles p) j) by lia. reflexivity.
Qed.

Lemma new_accessory_fields generate r e :
  ref (new_accessory generate r e) = r /\
  UUID (new_accessory generate r e) = generate (toUpperCase (c_vin e)) /\
  displayName (new_accessory generate r e) = c_name e /\
  context_name (new_accessory generate r e) = c_name e /\
  context_vin (new_accessory generate r e) = toUpperCase (c_vin e) /\
  lockService (new_accessory generate r e)
    = Some {| LockCurrentState := VNumber 1; LockTargetState := VNumber 1 |} /\
  switchService (new_accessory generate r e) = Some {| On := VBoolean false |}.
Proof. repeat split. Qed.

(** Both loops of a run: what was registered ([added]) and what was
    unregistered ([removed]). *)
Lemma addVehicles_trace generate p :
  exists added removed,
    config_vehicles (addVehicles generate p) = normalised <$> config_vehicles p /\
    vehicles (addVehicles generate p) = vehicles p ++ (handle_of <$> added) /\
    api (addVehicles generate p)
      = api p ++ (RegisterPlatformAccessories <$> added)
              ++ (UnregisterPlatformAccessories <$> removed) /\
    intervals (addVehicles generate p) = intervals p /\
    (accessories (addVehicles generate p) `sublist_of` accessories p ++ added) /\
    length (accessories (addVehicles generate p)) + length removed
      = length (accessories p) + length added /\
    NoDup (UUID <$> added) /\
    Forall (λ a, (UUID a ∉ UUID <$> accessories p) /\
                 exists e, e ∈ config_vehicles p /\
                           a = new_accessory generate (ref a) e) added /\
    Forall (λ a, a ∈ accessories p /\
                 forall e, e ∈ config_vehicles p ->
                           toUpperCase (c_vin e) <> context_vin a) removed /\
    (distinct_objects p ->
     forall a, a ∈ accessories p ++ added ->
               a ∈ accessories (addVehicles generate p) \/ a ∈ removed).
Proof.
  unfold addVehicles. destruct (config p ≫= c_vehicles) as [l|] eqn:Hl.
  - destruct (add_trace_end generate p)
      as (added & Ha & Hv & Hapi & Hiv & Hal & Hnu & Hnr & Hall).
    pose proof (add_loop_config generate p) as Hcfg.
    set (s1 := forEach config_vehicles (addVehicle generate) p) in *.
    destruct (remove_trace_end s1)
      as (removed & Rv & Rc & Riv & Rlog & Ral & Rapi & Rall & Rsub & Rlen & Rnd).
    set (q := forEach accessories removeAccessory s1) in *.
    assert (config_vehicles q = config_vehicles s1) as Hq
      by (unfold config_vehicles; now rewrite Rc).
    exists added, removed.
    split; [now rewrite Hq|]. split; [now rewrite Rv|].
    split; [now rewrite Rapi, Hapi, <- app_assoc|].
    split; [now rewrite Riv|]. split; [now rewrite <- Ha|].
    split; [now rewrite Rlen, Ha, length_app|]. split; [exact Hnu|]. split.
    { eapply Forall_impl; [exact Hall|]. simpl. intros a (H1 & _ & H3). auto. }
    split.
    { eapply Forall_impl; [exact Rall|]. simpl. intros a [Hin Hnone].
      rewrite Hcfg in Hnone.
      assert (forall e, e ∈ config_vehicles p ->
                toUpperCase (c_vin e) <> context_vin a) as Hun.
      { intros e He. apply (proj1 (find_vin_None _ _) Hnone (normalised e)).
        now apply list_elem_of_fmap_2. }
      split; [|exact Hun].
      rewrite Ha in Hin. apply elem_of_app in Hin as [Hin|Hin]; [exact Hin|].
      exfalso. rewrite Forall_forall in Hall.
      destruct (Hall a Hin) as (_ & _ & e & He & Hnew).
      apply (Hun e He). rewrite Hnew. reflexivity. }
    intros [Hdr Hdl] a Hin. apply Rnd; [|now rewrite Ha].
    rewrite Ha, fmap_app. apply NoDup_app. split; [exact Hdr|]. split; [|exact Hnr].
    intros r Hr Hr'.
    apply list_elem_of_fmap in Hr as (a1 & -> & Ha1).
    apply list_elem_of_fmap in Hr' as (a2 & Hr2 & Ha2).
    rewrite Forall_forall in Hdl, Hall.
    pose proof (Hdl a1 Ha1). destruct (Hall a2 Ha2) as (_ & Hge & _). lia.
  - exists [], []. simpl. rewrite !app_nil_r, (config_vehicles_missing p Hl).
    repeat split; auto using NoDup_nil_2.
Qed.

(** X6 (the configuration after a run): a run rewrites every entry of
    [config.vehicles] in place with its VIN upper-cased; names, order
    and number of entries are kept. *)
Theorem addVehicles_upper_cases_config
    (generate : string -> string) (p : FordPassPlatform) :
  c_vin <$> config_vehicles (addVehicles generate p)
    = (λ e, toUpperCase (c_vin e)) <$> config_vehicles p /\
  c_name <$> config_vehicles (addVehicles generate p)
    = c_name <$> config_vehicles p /\
  Forall (λ e, toUpperCase (c_vin e) = c_vin e)
         (config_vehicles (addVehicles generate p)).
Proof.
  destruct (addVehicles_trace generate p) as (added & removed & Hc & _).
  rewrite Hc, <- !list_fmap_compose. repeat split.
  apply Forall_fmap, Forall_forall. intros e _. simpl.
  apply toUpperCase_idempotent.
Qed.

(** X7 (what a run registers): the host calls of a run are its
    registrations followed by its unregistrations.  The registered
    accessories carry pairwise different identifiers, none of which was
    in the registry before; each is built from an entry of the
    configuration: identifier generated from the upper-cased VIN, name
    of the entry, lock current and target 1, switch off.  There are at
    most as many as entries. *)
Theorem addVehicles_registers_fresh
    (generate : string -> string) (p : FordPassPlatform) :
  exists added removed,
    api (addVehicles generate p)
      = api p ++ (RegisterPlatformAccessories <$> added)
              ++ (UnregisterPlatformAccessories <$> removed) /\
    NoDup (UUID <$> added) /\
    length added <= length (config_vehicles p) /\
    Forall (λ a, (UUID a ∉ UUID <$> accessories p) /\
                 exists e, e ∈ config_vehicles p /\
                   UUID a = generate (toUpperCase (c_vin e)) /\
                   displayName a = c_name e /\
                   context_name a = c_name e /\
                   context_vin a = toUpperCase (c_vin e) /\
                   lockService a
                     = Some {| LockCurrentState := VNumber 1;
                               LockTargetState := VNumber 1 |} /\
                   switchService a = Some {| On := VBoolean false |}) added.
Proof.
  destruct (addVehicles_trace generate p)
    as (added & removed & _ & _ & Hapi & _ & _ & _ & Hnd & Hall & _).
  exists added, removed. split; [exact Hapi|]. split; [exact Hnd|]. split.
  - rewrite <- (length_fmap UUID added),
            <- (length_fmap (uuid_for generate) (config_vehicles p)).
    apply submseteq_length, NoDup_submseteq; [exact Hnd|].
    intros u Hu. apply list_elem_of_fmap in Hu as (a & -> & Ha).
    rewrite Forall_forall in Hall. destruct (Hall a Ha) as (_ & e & He & Hnew).
    apply list_elem_of_fmap. exists e. split; [|exact He].
    rewrite Hnew. reflexivity.
  - eapply Forall_impl; [exact Hall|]. simpl.
    intros a (Hfresh & e & He & Hnew). split; [exact Hfresh|].
    exists e. split; [exact He|]. rewrite Hnew.
    pose proof (new_accessory_fields generate (ref a) e) as (_ & H).
    exact H.
Qed.

(** X8 (handles are only ever appended): a run keeps every handle it
    found, in place, and appends one handle without cached snapshot per
    registered accessory, in the order of the registrations, carrying
    that accessory's name and VIN.  No handle is removed, even for an
    accessory the run unregisters. *)
Theorem addVehicles_appends_handles
    (generate : string -> string) (p : FordPassPlatform) :
  exists added removed,
    api (addVehicles generate p)
      = api p ++ (RegisterPlatformAccessories <$> added)
              ++ (UnregisterPlatformAccessories <$> removed) /\
    vehicles (addVehicles generate p)
      = vehicles p ++ ((λ a, {| name := context_name a; vin := context_vin a;
                                info := None |}) <$> added) /\
    (vehicles p `prefix_of` vehicles (addVehicles generate p)).
Proof.
  destruct (addVehicles_trace generate p)
    as (added & removed & _ & Hv & Hapi & _).
  exists added, removed. split; [exact Hapi|]. split; [exact Hv|].
  rewrite Hv. now apply prefix_app_r.
Qed.

(** X9 (what a run unregisters): every accessory a run unregisters was
    in the registry before the run and its VIN differs from the
    upper-cased VIN of every entry of the configuration; an accessory
    whose VIN is configured is never unregistered, and neither is one
    the run has just registered. *)
Theorem addVehicles_unregisters_only_unconfigured
    (generate : string -> string) (p : FordPassPlatform) :
  exists added removed,
    api (addVehicles generate p)
      = api p ++ (RegisterPlatformAccessories <$> added)
              ++ (UnregisterPlatformAccessories <$> removed) /\
    Forall (λ a, a ∈ accessories p /\
                 forall e, e ∈ config_vehicles p ->
                           toUpperCase (c_vin e) <> context_vin a) removed.
Proof.
  destruct (addVehicles_trace generate p)
    as (added & removed & _ & _ & Hapi & _ & _ & _ & _ & _ & Hrem & _).
  exists added, removed. split; assumption.
Qed.

(** X10 (what a run keeps): when the registered accessories are distinct
    objects, an accessory whose VIN equals the upper-cased VIN of an
    entry stays in the registry; every accessory the run registers is in
    the registry afterwards; and an accessory that left the registry was
    unregistered with the host. *)
Theorem addVehicles_keeps_configured
    (generate : string -> string) (p : FordPassPlatform) :
  distinct_objects p ->
  exists added removed,
    api (addVehicles generate p)
      = api p ++ (RegisterPlatformAccessories <$> added)
              ++ (UnregisterPlatformAccessories <$> removed) /\
    (forall a e, a ∈ accessories p -> e ∈ config_vehicles p ->
       toUpperCase (c_vin e) = context_vin a ->
       a ∈ accessories (addVehicles generate p)) /\
    (forall a, a ∈ added -> a ∈ accessories (addVehicles generate p)) /\
    (forall a, a ∈ accessories p ->
       a ∈ accessories (addVehicles generate p) \/ a ∈ removed).
Proof.
  intros Hd.
  destruct (addVehicles_trace generate p)
    as (added & removed & _ & _ & Hapi & _ & _ & _ & _ & Hall & Hrem & Hkeep).
  specialize (Hkeep Hd). rewrite Forall_forall in Hrem, Hall.
  exists added, removed. split; [exact Hapi|]. split; [|split].
  - intros a e Ha He Hvin.
    destruct (Hkeep a) as [H|H]; [apply elem_of_app; now left|exact H|].
    exfalso. destruct (Hrem a H) as [_ Hun]. now apply (Hun e He).
  - intros a Ha.
    destruct (Hkeep a) as [H|H]; [apply elem_of_app; now right|exact H|].
    exfalso. destruct (Hrem a H) as [_ Hun].
    destruct (Hall a Ha) as (_ & e & He & Hnew).
    apply (Hun e He). rewrite Hnew. reflexivity.
  - intros a Ha. apply Hkeep, elem_of_app. now left.
Qed.

Lemma showroom_distinct : distinct_objects showroom.
Proof.
  split.
  - apply NoDup_cons. split; [|apply NoDup_singleton].
    intros H. apply list_elem_of_singleton in H. discriminate.
  - repeat constructor.
Defined.

Lemma addVehicles_keeps_configured_witness :
  exists added removed,
    api (addVehicles sample_generate showroom)
      = api showroom ++ (RegisterPlatformAccessories <$> added)
                     ++ (UnregisterPlatformAccessories <$> removed) /\
    (forall a, a ∈ accessories showroom ->
       a ∈ accessories (addVehicles sample_generate showroom) \/ a ∈ removed).
Proof.
  destruct (addVehicles_keeps_configured sample_generate showroom showroom_distinct)
    as (added & removed & H1 & _ & _ & H4).
  exists added, removed. split; assumption.
Defined.

(** X11 (the two arrays drift apart): each unregistration takes exactly
    one accessory out of the registry and no handle out of the handles.
    If the two arrays had the same length before a run, then after it
    the handles outnumber the accessories by the number of accessories
    the run unregistered. *)
Theorem addVehicles_length_gap
    (generate : string -> string) (p : FordPassPlatform) :
  length (accessories p) = length (vehicles p) ->
  exists added removed,
    api (addVehicles generate p)
      = api p ++ (RegisterPlatformAccessories <$> added)
              ++ (UnregisterPlatformAccessories <$> removed) /\
    length (accessories (addVehicles generate p)) + length removed
      = length (accessories p) + length added /\
    length (vehicles (addVehicles generate p))
      = length (accessories (addVehicles generate p)) + length removed.
Proof.
  intros Hlen.
  destruct (addVehicles_trace generate p)
    as (added & removed & _ & Hv & Hapi & _ & _ & Hl & _).
  exists added, removed. split; [exact Hapi|]. split; [exact Hl|].
  rewrite Hv, length_app, length_fmap. lia.
Qed.

Lemma addVehicles_length_gap_witness :
  exists added removed,
    api (addVehicles sample_generate showroom)
      = api showroom ++ (RegisterPlatformAccessories <$> added)
                     ++ (UnregisterPlatformAccessories <$> removed) /\
    length (vehicles (addVehicles sample_generate showroom))
      = length (accessories (addVehicles sample_generate showroom)) + length removed.
Proof.
  destruct (addVehicles_length_gap sample_generate showroom eq_refl)
    as (added & removed & H1 & _ & H3).
  exists added, removed. split; assumption.
Defined.

Lemma handles_parallel (l : list PlatformAccessory) :
  Forall2 (λ a v, name v = context_name a /\ vin v = context_vin a)
          l (handle_of <$> l).
Proof. induction l; constructor; [split; reflexivity|assumption]. Qed.

(** A run that finds the VIN of every accessory in the configuration. *)
Lemma run_without_removal
    (generate : string -> string) (p : FordPassPlatform) :
  (forall a, a ∈ accessories p ->
     exists e, e ∈ config_vehicles p /\ toUpperCase (c_vin e) = context_vin a) ->
  (exists added,
     accessories (addVehicles generate p) = accessories p ++ added /\
     vehicles (addVehicles generate p) = vehicles p ++ (handle_of <$> added) /\
     api (addVehicles generate p)
       = api p ++ (RegisterPlatformAccessories <$> added) /\
     Forall (λ a, exists e, e ∈ config_vehicles p /\
                            a = new_accessory generate (ref a) e) added) /\
  (aligned p -> aligned (addVehicles generate p)) /\
  (operational generate p -> operational generate (addVehicles generate p)).
Proof.
  intros Hconf.
  assert (exists added,
            accessories (addVehicles generate p) = accessories p ++ added /\
            vehicles (addVehicles generate p) = vehicles p ++ (handle_of <$> added) /\
            api (addVehicles generate p)
              = api p ++ (RegisterPlatformAccessories <$> added) /\
            Forall (λ a, UUID a = generate (context_vin a)) added /\
            Forall (λ a, exists e, e ∈ config_vehicles p /\
                                   a = new_accessory generate (ref a) e) added)
    as Hrun.
  { unfold addVehicles. destruct (config p ≫= c_vehicles) as [l|] eqn:Hl.
    - destruct (add_trace_end generate p)
        as (added & Ha & Hv & Hapi & _ & _ & _ & _ & Hall).
      pose proof (add_loop_config generate p) as Hcfg.
      rewrite remove_loop_id.
      + exists added. split; [exact Ha|]. split; [exact Hv|].
        split; [exact Hapi|]. split.
        * eapply Forall_impl; [exact Hall|]. simpl.
          intros a (_ & _ & e & _ & ->). reflexivity.
        * eapply Forall_impl; [exact Hall|]. simpl.
          intros a (_ & _ & H). exact H.
      + intros a Hin. rewrite Hcfg. rewrite Ha in Hin.
        rewrite Forall_forall in Hall.
        apply elem_of_app in Hin as [Hin|Hin].
        * destruct (Hconf a Hin) as (e & He & Hvin).
          apply list_find_elem_of with (normalised e);
            [now apply list_elem_of_fmap_2|exact Hvin].
        * destruct (Hall a Hin) as (_ & _ & e & He & Hnew).
          apply list_find_elem_of with (normalised e);
            [now apply list_elem_of_fmap_2|]. rewrite Hnew. reflexivity.
    - exists []. simpl. rewrite !app_nil_r. repeat split; constructor. }
  destruct Hrun as (added & Ha & Hv & Hapi & Hu & Hnew).
  split; [exists added; repeat split; assumption|].
  assert (aligned p -> aligned (addVehicles generate p)) as Hal.
  { unfold aligned. rewrite Ha, Hv. intros H.
    apply Forall2_app; [exact H|apply handles_parallel]. }
  split; [exact Hal|].
  intros (H1 & H2 & H3). split; [now apply Hal|]. split.
  - rewrite Ha. apply Forall_app. split; assumption.
  - now apply addVehicles_NoDup.
Qed.

(** X12 (runs that remove nothing): when every registered accessory
    carries the upper-cased VIN of an entry, a run unregisters nothing
    and only appends what it registers; parallel arrays stay parallel,
    and a registry with identifiers generated from the accessories' own
    VINs and without duplicates stays so. *)
Theorem addVehicles_keeps_operational
    (generate : string -> string) (p : FordPassPlatform) :
  (forall a, a ∈ accessories p ->
     exists e, e ∈ config_vehicles p /\ toUpperCase (c_vin e) = context_vin a) ->
  (exists added,
     accessories (addVehicles generate p) = accessories p ++ added /\
     vehicles (addVehicles generate p) = vehicles p ++ (handle_of <$> added) /\
     api (addVehicles generate p)
       = api p ++ (RegisterPlatformAccessories <$> added)) /\
  (aligned p -> aligned (addVehicles generate p)) /\
  (operational generate p -> operational generate (addVehicles generate p)).
Proof.
  intros H.
  destruct (run_without_removal generate p H)
    as ((added & Ha & Hv & Hapi & _) & Hal & Hop).
  split; [exists added; repeat split; assumption|]. split; assumption.
Qed.

Lemma addVehicles_keeps_operational_witness :
  operational sample_generate
    (addVehicles sample_generate
       (constructor (Some (sample_config
          (Some [{| c_name := "Mustang"; c_vin := "1fa6p8th5l5100001" |}]))))).
Proof.
  apply (addVehicles_keeps_operational sample_generate
           (constructor (Some (sample_config
              (Some [{| c_name := "Mustang"; c_vin := "1fa6p8th5l5100001" |}]))))).
  - intros a Ha. now apply elem_of_nil in Ha.
  - split; [constructor|]. split; [constructor|apply NoDup_nil_2].
Defined.

(** ** Further properties of the status pass *)

Lemma pushed_map {B} (f : PlatformAccessory -> B) l l' :
  (forall n st a, f (project n st a) = f a) ->
  Forall2 pushed l l' -> f <$> l' = f <$> l.
Proof.
  intros Hf H. induction H as [|a a' l l' Hp _ IH]; [reflexivity|].
  rewrite !fmap_cons, IH. f_equal.
  destruct Hp as [->|(n & st & ->)]; [reflexivity|apply Hf].
Qed.

Lemma find_UUID_pushed_None u l l' :
  Forall2 pushed l l' -> find_UUID u l = None -> find_UUID u l' = None.
Proof.
  intros HF H. unfold find_UUID in *. apply list_find_None.
  apply list_find_None in H. rewrite Forall_forall in *.
  intros a' Ha' Hu.
  apply list_elem_of_lookup_1 in Ha' as [i Hi].
  destruct (Forall2_lookup_r _ _ _ _ _ HF Hi) as (a & Ha & Hp).
  apply (H a); [apply list_elem_of_lookup_2 with i, Ha|].
  now rewrite <- (pushed_UUID _ _ Hp).
Qed.

Lemma pass_frame_end generate fetched p :
  pass_frame p (updateVehicles generate fetched p).
Proof.
  unfold updateVehicles.
  apply (forEach_invariant vehicles (updateVehicle generate fetched)
           (λ _ s, pass_frame p s)); [|repeat split].
  intros k s H. destruct (vehicles s !! k) as [v|]; [|exact H].
  unfold updateVehicle. simpl.
  destruct (find_UUID _ _) as [[i a]|]; exact H.
Qed.

Lemma pass_untouched_end generate fetched p :
  pass_untouched generate p (length (vehicles p))
    (updateVehicles generate fetched p).
Proof.
  unfold updateVehicles.
  apply (forEach_invariant vehicles (updateVehicle generate fetched)
           (λ j s, pass_inv generate fetched p j s /\
                   pass_untouched generate p j s)).
  - intros j s [Hinv Hun]. split; [now apply pass_inv_step|].
    destruct Hinv as (Hlen & Hveh & Hacc & _).
    destruct (vehicles s !! j) as [x|] eqn:Hj.
    + assert (j < length (vehicles p)) as Hjlt
        by (rewrite <- Hlen; apply lookup_lt_Some with x, Hj).
      destruct (lookup_lt_is_Some_2 (vehicles p) j Hjlt) as [v Hv].
      pose proof (Hveh j v Hv) as Hx. rewrite Hj in Hx.
      destruct (decide (j < j)); [lia|]. injection Hx as ->.
      intros i Hi.
      assert (accessories s !! i = accessories p !! i) as Hs.
      { apply Hun. intros k w r Hk. apply Hi. lia. }
      unfold updateVehicle. simpl.
      destruct (find_UUID (generate (vin v)) (accessories p)) as [[i0 a0]|] eqn:Hf.
      * destruct (find_UUID_pushed _ _ _ _ _ Hacc Hf) as (a1 & Hf1 & _).
        rewrite Hf1. simpl.
        rewrite list_lookup_insert_ne; [exact Hs|].
        intros ->. apply (Hi j v (i, a0)); [lia|exact Hv|exact Hf|reflexivity].
      * rewrite (find_UUID_pushed_None _ _ _ Hacc Hf). exact Hs.
    + intros i Hi. apply Hun. intros k w r Hk. apply Hi. lia.
  - split; [apply pass_inv_start|]. intros i _. reflexivity.
Qed.

Lemma find_UUID_pushed_fst u l l' :
  Forall2 pushed l l' -> fst <$> find_UUID u l' = fst <$> find_UUID u l.
Proof.
  intros HF. destruct (find_UUID u l) as [[i a]|] eqn:Hf.
  - destruct (find_UUID_pushed _ _ _ _ _ HF Hf) as (a' & -> & _). reflexivity.
  - now rewrite (find_UUID_pushed_None _ _ _ HF Hf).
Qed.

Lemma bounded_decide (P : nat -> Prop) `{!forall k, Decision (P k)} (n : nat) :
  (exists k, k < n /\ P k) \/ (forall k, k < n -> ~ P k).
Proof.
  induction n as [|n [(k & Hk & HP)|IH]].
  - right. intros; lia.
  - left. exists k. split; [lia|exact HP].
  - destruct (decide (P n)) as [Hn|Hn].
    + left. exists n. split; [lia|exact Hn].
    + right. intros k Hk. destruct (decide (k = n)) as [->|]; [exact Hn|].
      apply IH. lia.
Qed.

Lemma set_info_set_info i j v : set_info i (set_info j v) = set_info i v.
Proof. reflexivity. Qed.

Section PassFacts.
Variable generate : string -> string.
Variable fetched : nat -> option VehicleInfo.

(** What the pass does at index [i] of the registry: either the last
    handle that maps there wrote its projection, or no handle maps
    there and the accessory is as before. *)
Lemma pass_lookup p i :
  (exists k v a,
     vehicles p !! k = Some v /\
     find_UUID (generate (vin v)) (accessories p) = Some (i, a) /\
     (forall k' v', k < k' -> vehicles p !! k' = Some v' ->
        generate (vin v') <> generate (vin v)) /\
     accessories (updateVehicles generate fetched p) !! i
       = Some (project (lockNumber_of (fetched k)) (started_of (fetched k)) a)) \/
  ((forall k v r, vehicles p !! k = Some v ->
      find_UUID (generate (vin v)) (accessories p) = Some r -> r.1 <> i) /\
   accessories (updateVehicles generate fetched p) !! i = accessories p !! i).
Proof.
  set (P := λ k, vehicles p !! k
                   ≫= (λ v, fst <$> find_UUID (generate (vin v)) (accessories p))
                 = Some i).
  destruct (bounded_decide P (length (vehicles p))) as [(k0 & Hk0 & HP0)|Hnone].
  - left.
    destruct (last_index P (length (vehicles p)) k0 HP0 Hk0)
      as (k & Hr & HP & Hmax).
    unfold P in HP. destruct (vehicles p !! k) as [v|] eqn:Hv; [|discriminate].
    simpl in HP.
    destruct (find_UUID (generate (vin v)) (accessories p)) as [[i' a]|] eqn:Hf;
      [|discriminate].
    injection HP as ->.
    assert (forall k' v', k < k' -> vehicles p !! k' = Some v' ->
              generate (vin v') <> generate (vin v)) as Hlater.
    { intros k' v' Hk' Hv' E. apply (Hmax k').
      - split; [exact Hk'|apply lookup_lt_Some with v', Hv'].
      - unfold P. rewrite Hv'. simpl. rewrite E, Hf. reflexivity. }
    exists k, v, a. split; [exact Hv|]. split; [exact Hf|].
    split; [exact Hlater|].
    now apply (updateVehicles_accessory generate fetched p k v i a).
  - right.
    assert (forall k v r, vehicles p !! k = Some v ->
              find_UUID (generate (vin v)) (accessories p) = Some r -> r.1 <> i)
      as Hun.
    { intros k v r Hv Hf Hi. apply (Hnone k).
      - apply lookup_lt_Some with v, Hv.
      - unfold P. rewrite Hv. simpl. rewrite Hf. simpl. now rewrite Hi. }
    split; [exact Hun|].
    apply (pass_untouched_end generate fetched p).
    intros k v r _. apply Hun.
Qed.

(** X13 (what a status pass leaves alone): a pass calls the host API for
    nothing, starts no timer and leaves the configuration alone; it
    neither adds nor removes nor reorders accessories or handles, and it
    changes no identity: object, UUID, names and VINs are as before, and
    no service appears or disappears. *)
Theorem updateVehicles_frame (p : FordPassPlatform) :
  config (updateVehicles generate fetched p) = config p /\
  api (updateVehicles generate fetched p) = api p /\
  intervals (updateVehicles generate fetched p) = intervals p /\
  name <$> vehicles (updateVehicles generate fetched p) = name <$> vehicles p /\
  vin <$> vehicles (updateVehicles generate fetched p) = vin <$> vehicles p /\
  ref <$> accessories (updateVehicles generate fetched p) = ref <$> accessories p /\
  UUID <$> accessories (updateVehicles generate fetched p) = UUID <$> accessories p /\
  displayName <$> accessories (updateVehicles generate fetched p)
    = displayName <$> accessories p /\
  context_name <$> accessories (updateVehicles generate fetched p)
    = context_name <$> accessories p /\
  context_vin <$> accessories (updateVehicles generate fetched p)
    = context_vin <$> accessories p /\
  (λ a, (bool_decide (is_Some (lockService a)),
         bool_decide (is_Some (switchService a))))
    <$> accessories (updateVehicles generate fetched p)
    = (λ a, (bool_decide (is_Some (lockService a)),
             bool_decide (is_Some (switchService a)))) <$> accessories p.
Proof.
  destruct (pass_frame_end generate fetched p) as (Hc & Hapi & Hiv & _).
  destruct (pass_inv_end generate fetched p) as (Hlen & Hveh & Hacc & _).
  assert (forall {B} (f : Vehicle -> B),
            (forall i v, f (set_info i v) = f v) ->
            f <$> vehicles (updateVehicles generate fetched p) = f <$> vehicles p)
    as Hmap.
  { intros B f Hf. apply list_eq. intros k. rewrite !list_lookup_fmap.
    destruct (vehicles p !! k) as [v|] eqn:Hk.
    - rewrite (Hveh k v Hk). simpl.
      destruct (decide (k < length (vehicles p))); [now rewrite Hf|reflexivity].
    - apply lookup_ge_None in Hk. rewrite lookup_ge_None_2 by lia. reflexivity. }
  split; [exact Hc|]. split; [exact Hapi|]. split; [exact Hiv|].
  split; [now apply Hmap|]. split; [now apply Hmap|].
  repeat split; apply pushed_map; try exact Hacc; try reflexivity.
  intros n st [r d u cn cv [l|] [sw|]]; reflexivity.
Qed.

(** X14 (accessories no handle maps to): an accessory that is the
    result of the lookup by UUID for no handle (no handle has its UUID,
    or an earlier accessory with the same UUID shadows it) is exactly as
    it was after the pass. *)
Theorem updateVehicles_untargeted_unchanged (p : FordPassPlatform) (i : nat) :
  (forall k v r, vehicles p !! k = Some v ->
     find_UUID (generate (vin v)) (accessories p) = Some r -> r.1 <> i) ->
  accessories (updateVehicles generate fetched p) !! i = accessories p !! i.
Proof.
  intros H. apply (pass_untouched_end generate fetched p).
  intros k v r _. apply H.
Qed.

(** X15 (a pass is idempotent): with the same fetch results, a second
    pass leaves every accessory and every handle as the first pass left
    them. *)
Theorem updateVehicles_idempotent (p : FordPassPlatform) :
  accessories (updateVehicles generate fetched (updateVehicles generate fetched p))
    = accessories (updateVehicles generate fetched p) /\
  vehicles (updateVehicles generate fetched (updateVehicles generate fetched p))
    = vehicles (updateVehicles generate fetched p).
Proof.
  set (q := updateVehicles generate fetched p).
  destruct (pass_inv_end generate fetched p) as (Hlen & Hveh & Hacc & _).
  fold q in Hlen, Hveh, Hacc.
  assert (forall k v, vehicles p !! k = Some v ->
            vehicles q !! k = Some (set_info (fetched k) v)) as Hq
    by (intros k v; apply updateVehicles_vehicles).
  assert (forall k w, vehicles q !! k = Some w ->
            exists v, vehicles p !! k = Some v /\ vin w = vin v) as Hback.
  { intros k w Hw.
    destruct (lookup_lt_is_Some_2 (vehicles p) k) as [v Hv].
    - rewrite <- Hlen. apply lookup_lt_Some with w, Hw.
    - exists v. split; [exact Hv|]. rewrite (Hq k v Hv) in Hw.
      injection Hw as <-. reflexivity. }
  split.
  - apply list_eq. intros i.
    destruct (pass_lookup q i) as [(k & w & a1 & Hw & Hf1 & Hlater & ->)|[_ ->]];
      [|reflexivity].
    destruct (Hback k w Hw) as (v & Hv & Hvin).
    pose proof (find_UUID_pushed_fst (generate (vin w)) _ _ Hacc) as Hfst.
    rewrite Hf1 in Hfst. simpl in Hfst.
    destruct (find_UUID (generate (vin w)) (accessories p)) as [[i0 a]|] eqn:Hf;
      [|discriminate].
    injection Hfst as <-. rewrite Hvin in Hf.
    assert (accessories q !! i
            = Some (project (lockNumber_of (fetched k)) (started_of (fetched k)) a))
      as Hi.
    { apply (updateVehicles_accessory generate fetched p k v i a Hv Hf).
      intros k' v' Hk' Hv'. rewrite <- Hvin.
      specialize (Hlater k' (set_info (fetched k') v') Hk' (Hq k' v' Hv')).
      exact Hlater. }
    apply list_find_Some in Hf1 as (Ha1 & _). rewrite Hi in Ha1.
    injection Ha1 as <-. rewrite Hi. f_equal. apply project_project.
  - apply list_eq. intros k.
    destruct (vehicles q !! k) as [w|] eqn:Hw.
    + rewrite (updateVehicles_vehicles generate fetched q k w Hw).
      destruct (Hback k w Hw) as (v & Hv & _). rewrite (Hq k v Hv) in Hw.
      injection Hw as <-. reflexivity.
    + apply lookup_ge_None in Hw. apply lookup_ge_None.
      destruct (pass_inv_end generate fetched q) as (Hlen2 & _).
      fold q in Hlen2. lia.
Qed.
End PassFacts.

Lemma updateVehicles_untargeted_unchanged_witness :
  accessories (updateVehicles sample_generate (λ _, Some unlocked_idle) one_handle)
    !! 1%nat
  = accessories one_handle !! 1%nat.
Proof.
  apply (updateVehicles_untargeted_unchanged sample_generate
           (λ _, Some unlocked_idle) one_handle 1).
  intros [|k] v r Hk Hf; [|discriminate].
  injection Hk as <-. vm_compute in Hf. injection Hf as <-. discriminate.
Defined.

Lemma aligned_pairs p :
  aligned p <->
  (λ a, (context_name a, context_vin a)) <$> accessories p
  = (λ v, (name v, vin v)) <$> vehicles p.
Proof.
  unfold aligned. rewrite list_eq_Forall2, Forall2_fmap. split.
  - intros H. eapply Forall2_impl; [exact H|]. simpl.
    intros a v [-> ->]. reflexivity.
  - intros H. eapply Forall2_impl; [exact H|]. simpl.
    intros a v [= -> ->]. split; reflexivity.
Qed.

Section PassOperational.
Variable generate : string -> string.
Variable fetched : nat -> option VehicleInfo.
Variable p : FordPassPlatform.

Lemma pass_vehicles_map {B} (f : Vehicle -> B) :
  (forall i v, f (set_info i v) = f v) ->
  f <$> vehicles (updateVehicles generate fetched p) = f <$> vehicles p.
Proof.
  intros Hf. destruct (pass_inv_end generate fetched p) as (Hlen & Hveh & _).
  apply list_eq. intros k. rewrite !list_lookup_fmap.
  destruct (vehicles p !! k) as [v|] eqn:Hk.
  - rewrite (Hveh k v Hk). simpl.
    destruct (decide (k < length (vehicles p))); [now rewrite Hf|reflexivity].
  - apply lookup_ge_None in Hk. rewrite lookup_ge_None_2 by lia. reflexivity.
Qed.

Lemma pass_accessories_map {B} (f : PlatformAccessory -> B) :
  (forall n st a, f (project n st a) = f a) ->
  f <$> accessories (updateVehicles generate fetched p) = f <$> accessories p.
Proof.
  intros Hf. destruct (pass_inv_end generate fetched p) as (_ & _ & Hacc & _).
  now apply pushed_map.
Qed.

Lemma pass_keeps_operational :
  operational generate p ->
  operational generate (updateVehicles generate fetched p).
Proof.
  intros (Hal & Hu & Hnd). split; [|split].
  - apply aligned_pairs. apply aligned_pairs in Hal.
    rewrite pass_accessories_map, pass_vehicles_map by reflexivity. exact Hal.
  - assert (Forall (λ x : string * string, x.1 = generate x.2)
              ((λ a, (UUID a, context_vin a)) <$> accessories p)) as H
      by (apply Forall_fmap; exact Hu).
    rewrite <- pass_accessories_map in H by reflexivity.
    apply Forall_fmap in H. exact H.
  - rewrite pass_accessories_map by reflexivity. exact Hnd.
Qed.

(** In an operational registry the lookup by UUID for the handle at an
    index lands on the accessory at that index, and no other handle maps
    there. *)
Lemma operational_own_handle i a :
  operational generate p -> accessories p !! i = Some a ->
  exists v,
    vehicles p !! i = Some v /\ name v = context_name a /\
    vin v = context_vin a /\
    find_UUID (generate (vin v)) (accessories p) = Some (i, a) /\
    (forall k' v', i < k' -> vehicles p !! k' = Some v' ->
       generate (vin v') <> generate (vin v)).
Proof.
  intros (Hal & Hu & Hnd) Hi. rewrite Forall_lookup in Hu.
  destruct (Forall2_lookup_l _ _ _ _ _ Hal Hi) as (v & Hv & Hn & Hvin).
  exists v. split; [exact Hv|]. split; [exact Hn|]. split; [exact Hvin|].
  assert (forall j y, accessories p !! j = Some y -> UUID y = UUID a -> j = i)
    as Huniq.
  { intros j y Hj Hy. apply (NoDup_lookup _ j i (UUID a) Hnd);
      rewrite list_lookup_fmap; [rewrite Hj|rewrite Hi]; simpl; congruence. }
  split.
  - apply list_find_Some. split; [exact Hi|]. split.
    + rewrite Hvin. apply (Hu i a Hi).
    + intros j y Hj Hlt Hy. rewrite Hvin, <- (Hu i a Hi) in Hy.
      specialize (Huniq j y Hj Hy). lia.
  - intros k' v' Hk' Hv' E.
    destruct (Forall2_lookup_r _ _ _ _ _ Hal Hv') as (a' & Ha' & _ & Hvin').
    rewrite Hvin, Hvin', <- (Hu i a Hi), <- (Hu k' a' Ha') in E.
    specialize (Huniq k' a' Ha' E). lia.
Qed.

Lemma pass_operational i a :
  operational generate p -> accessories p !! i = Some a ->
  accessories (updateVehicles generate fetched p) !! i
    = Some (project (lockNumber_of (fetched i)) (started_of (fetched i)) a) /\
  exists v,
    vehicles p !! i = Some v /\ vin v = context_vin a /\
    vehicles (updateVehicles generate fetched p) !! i
      = Some (set_info (fetched i) v).
Proof.
  intros Hop Hi.
  destruct (operational_own_handle i a Hop Hi) as (v & Hv & _ & Hvin & Hf & Hl).
  split.
  - now apply (updateVehicles_accessory generate fetched p i v i a).
  - exists v. split; [exact Hv|]. split; [exact Hvin|].
    now apply updateVehicles_vehicles.
Qed.
End PassOperational.

(** X16 (a pass over a registry the platform built): when the arrays
    are parallel, every identifier is generated from the accessory's own
    VIN and no identifier occurs twice, a pass writes into the accessory
    at each index the projection of what was fetched for the handle at
    the same index, caches that result in the handle, and leaves the
    registry in the same good shape. *)
Theorem updateVehicles_operational
    (generate : string -> string) (fetched : nat -> option VehicleInfo)
    (p : FordPassPlatform) :
  operational generate p ->
  operational generate (updateVehicles generate fetched p) /\
  forall i a,
    accessories p !! i = Some a ->
    accessories (updateVehicles generate fetched p) !! i
      = Some (project (lockNumber_of (fetched i)) (started_of (fetched i)) a) /\
    exists v,
      vehicles p !! i = Some v /\ vin v = context_vin a /\
      vehicles (updateVehicles generate fetched p) !! i
        = Some (set_info (fetched i) v).
Proof.
  intros Hop. split; [now apply pass_keeps_operational|].
  intros i a. now apply pass_operational.
Qed.

Lemma showroom_operational : operational sample_generate showroom.
Proof.
  split; [|split].
  - repeat constructor.
  - repeat constructor.
  - apply NoDup_cons. split; [|apply NoDup_singleton].
    intros H. apply list_elem_of_singleton in H. discriminate.
Defined.

Lemma updateVehicles_operational_witness :
  accessories (updateVehicles sample_generate (λ _, Some unlocked_idle) showroom)
    !! 1%nat
  = Some (project 0 false bronco).
Proof.
  destruct (updateVehicles_operational sample_generate (λ _, Some unlocked_idle)
              showroom showroom_operational) as [_ H].
  destruct (H 1 bronco eq_refl) as [H1 _]. exact H1.
Defined.

(** ** Further properties of the launch hook *)


Lemma launch_intervals generate connected fetched p :
  intervals (launch generate connected fetched p)
  = intervals p ++
    (if subscribed p && connected
     then (Reauthenticate, 7080000%Z)
          :: (if absent (config p ≫= c_vehicles) then []
              else [(UpdateVehicles, 60000%Z)])
     else []).
Proof.
  unfold launch, didFinishLaunching.
  destruct (subscribed p), connected; simpl; rewrite ?app_nil_r; try reflexivity.
  destruct (config p ≫= c_vehicles) as [l|] eqn:Hl; simpl; [|reflexivity].
  destruct (pass_frame_end generate fetched
              (addVehicles generate (setInterval Reauthenticate 7080000 p)))
    as (_ & _ & -> & _).
  destruct (addVehicles_trace generate (setInterval Reauthenticate 7080000 p))
    as (added & removed & _ & _ & _ & -> & _).
  simpl. now rewrite <- app_assoc.
Qed.

(** X17 (the timers of the launch hook): the hook starts the
    re-authentication timer of 7080000 ms and then the status timer of
    60000 ms, in this order, exactly when it was subscribed and the
    authentication succeeded (the second one only if the configuration
    has a vehicle list); otherwise it starts no timer, and with a failed
    authentication it changes nothing at all. *)
Theorem launch_timers
    (generate : string -> string) (connected : bool)
    (fetched : nat -> option VehicleInfo) (p : FordPassPlatform) :
  intervals (launch generate connected fetched p)
  = intervals p ++
    (if subscribed p && connected
     then (Reauthenticate, 7080000%Z)
          :: (if absent (config p ≫= c_vehicles) then []
              else [(UpdateVehicles, 60000%Z)])
     else []) /\
  launch generate false fetched p = p.
Proof.
  split; [apply launch_intervals|].
  unfold launch, didFinishLaunching. now destruct (subscribed p).
Qed.



(** ** Further properties of whole runs *)

(** A run that finds the VIN of every accessory in the configuration
    ends settled. *)
Lemma run_settles generate p :
  (forall a, a ∈ accessories p ->
     exists e, e ∈ config_vehicles p /\ toUpperCase (c_vin e) = context_vin a) ->
  settled generate (addVehicles generate p).
Proof.
  intros Hconf. unfold addVehicles.
  destruct (config p ≫= c_vehicles) as [l|] eqn:Hl.
  - destruct (add_inv_end generate p) as (_ & (added & Hacc & Hadded) & Hcover & _).
    pose proof (add_loop_config generate p) as Hcfg.
    set (s1 := forEach config_vehicles (addVehicle generate) p) in *.
    assert (forall a, a ∈ accessories s1 ->
              exists e, e ∈ config_vehicles s1 /\ c_vin e = context_vin a) as Hback.
    { intros a Hin. rewrite Hacc in Hin. rewrite Forall_forall in Hadded.
      apply elem_of_app in Hin as [Hin|Hin].
      - destruct (Hconf a Hin) as (e & He & Hv).
        exists (normalised e). split; [|exact Hv].
        rewrite Hcfg. now apply list_elem_of_fmap_2.
      - destruct (Hadded a Hin) as (e & He & Hv).
        exists (normalised e). split; [|now rewrite Hv].
        rewrite Hcfg. now apply list_elem_of_fmap_2. }
    rewrite remove_loop_id.
    + split; [|exact Hback].
      intros e' He'. rewrite Hcfg in He'.
      apply list_elem_of_fmap in He' as (e & -> & He).
      split; [apply toUpperCase_idempotent|].
      apply list_elem_of_lookup_1 in He as [j Hj].
      apply (Hcover j e); [apply lookup_lt_Some with e, Hj|exact Hj].
    + intros a Hin. destruct (Hback a Hin) as (e & He & Hv).
      now apply list_find_elem_of with e.
  - split.
    + intros e He. rewrite (config_vehicles_missing p Hl) in He.
      now apply elem_of_nil in He.
    + intros a Ha. destruct (Hconf a Ha) as (e & He & _).
      rewrite (config_vehicles_missing p Hl) in He. now apply elem_of_nil in He.
Qed.

(** X19 (idempotence from a consistent registry): if every registered
    accessory carries the upper-cased VIN of an entry, then after one
    run a second run with the same configuration calls the host for
    nothing and leaves accessories, handles and configuration as they
    are; the same holds for a run from any settled state. *)
Theorem addVehicles_idempotent_when_consistent
    (generate : string -> string) (p : FordPassPlatform) :
  (forall a, a ∈ accessories p ->
     exists e, e ∈ config_vehicles p /\ toUpperCase (c_vin e) = context_vin a) ->
  settled generate (addVehicles generate p) /\
  api (addVehicles generate (addVehicles generate p))
    = api (addVehicles generate p) /\
  accessories (addVehicles generate (addVehicles generate p))
    = accessories (addVehicles generate p) /\
  vehicles (addVehicles generate (addVehicles generate p))
    = vehicles (addVehicles generate p) /\
  config (addVehicles generate (addVehicles generate p))
    = config (addVehicles generate p).
Proof.
  intros H. pose proof (run_settles generate p H) as Hs.
  split; [exact Hs|].
  pose proof (settled_run generate _ Hs) as Hr.
  unfold registry in Hr. injection Hr as _ Ha Hv Hc Hapi _. auto.
Qed.

Lemma addVehicles_idempotent_when_consistent_witness :
  api (addVehicles sample_generate (addVehicles sample_generate
         (restored (sample_config
            (Some [{| c_name := "Bronco"; c_vin := "1fmee5dp7mla00002" |}]))
            [bronco])))
  = api (addVehicles sample_generate
           (restored (sample_config
              (Some [{| c_name := "Bronco"; c_vin := "1fmee5dp7mla00002" |}]))
              [bronco])).
Proof.
  apply (addVehicles_idempotent_when_consistent sample_generate
           (restored (sample_config
              (Some [{| c_name := "Bronco"; c_vin := "1fmee5dp7mla00002" |}]))
              [bronco])).
  intros a Ha. apply list_elem_of_singleton in Ha. subst a.
  exists {| c_name := "Bronco"; c_vin := "1fmee5dp7mla00002" |}.
  split; [apply list_elem_of_here|reflexivity].
Defined.

Lemma add_loop_distinct generate p :
  distinct_objects p ->
  NoDup (ref <$> accessories (forEach config_vehicles (addVehicle generate) p)).
Proof.
  intros [Hdr Hdl].
  destruct (add_trace_end generate p) as (added & Ha & _ & _ & _ & _ & _ & Hnr & Hall).
  rewrite Ha, fmap_app. apply NoDup_app. split; [exact Hdr|]. split; [|exact Hnr].
  intros r Hr Hr'.
  apply list_elem_of_fmap in Hr as (a1 & -> & Ha1).
  apply list_elem_of_fmap in Hr' as (a2 & Hr2 & Ha2).
  rewrite Forall_forall in Hdl, Hall.
  pose proof (Hdl a1 Ha1). destruct (Hall a2 Ha2) as (_ & Hge & _). lia.
Qed.

Lemma removeAccessory_removed a k s index :
  find_vin (context_vin a) (config_vehicles s) = None ->
  indexOf a (accessories s) = Some index ->
  accessories (removeAccessory a k s) = delete index (accessories s) /\
  api (removeAccessory a k s) = api s ++ [UnregisterPlatformAccessories a] /\
  config (removeAccessory a k s) = config s.
Proof.
  intros Hf Hi. unfold removeAccessory. rewrite Hf. simpl. rewrite Hi.
  repeat split.
Qed.

(** The removal loop removes the first accessory whose VIN is not
    configured and never examines the one after it. *)
Lemma remove_loop_skips s1 pre a b rest :
  NoDup (ref <$> accessories s1) ->
  accessories s1 = pre ++ a :: b :: rest ->
  (forall x, x ∈ pre ->
     is_Some (find_vin (context_vin x) (config_vehicles s1))) ->
  find_vin (context_vin a) (config_vehicles s1) = None ->
  (UnregisterPlatformAccessories a ∈ api (forEach accessories removeAccessory s1)) /\
  (a ∉ accessories (forEach accessories removeAccessory s1)) /\
  b ∈ accessories (forEach accessories removeAccessory s1).
Proof.
  intros Hnd Hacc Hpre Ha.
  assert (a ∉ pre ++ b :: rest) as Hnota.
  { rewrite Hacc, fmap_app, fmap_cons in Hnd.
    apply NoDup_app in Hnd as (_ & Hdisj & Hnd).
    apply NoDup_cons in Hnd as [Hnot _].
    intros Hin. apply elem_of_app in Hin as [Hin|Hin].
    - apply (Hdisj (ref a)); [now apply list_elem_of_fmap_2|]. now left.
    - apply Hnot. now apply list_elem_of_fmap_2. }
  set (Inv := λ (k : nat) (s : FordPassPlatform),
         config s = config s1 /\
         (accessories s `sublist_of` accessories s1) /\
         (k <= length pre -> accessories s = accessories s1 /\ api s = api s1) /\
         (length pre < k ->
            (exists j, j < k /\ accessories s !! j = Some b) /\
            (a ∉ accessories s) /\
            UnregisterPlatformAccessories a ∈ api s)).
  assert (Inv (length (accessories s1)) (forEach accessories removeAccessory s1))
    as (_ & _ & _ & Hend).
  { apply (forEach_invariant accessories removeAccessory Inv).
    - intros k s (Hc & Hsub & Hlow & Hhigh).
      assert (config_vehicles s = config_vehicles s1) as Hcv
        by (unfold config_vehicles; now rewrite Hc).
      assert (NoDup (ref <$> accessories s)) as Hnds
        by (eapply sublist_NoDup; [exact Hnd|apply fmap_sublist, Hsub]).
      destruct (accessories s !! k) as [x|] eqn:Hk.
      + destruct (find_vin (context_vin x) (config_vehicles s1)) as [r|] eqn:Hfx.
        * (* kept *)
          rewrite removeAccessory_kept by (rewrite Hcv, Hfx; eauto).
          split; [exact Hc|]. split; [exact Hsub|]. split.
          -- intros Hle. apply Hlow. lia.
          -- intros Hlt. destruct (decide (k = length pre)) as [->|Hne].
             ++ exfalso. destruct Hlow as [Heq _]; [lia|].
                rewrite Heq, Hacc, lookup_app_r, Nat.sub_diag in Hk by lia.
                injection Hk as <-. congruence.
             ++ destruct Hhigh as ((j & Hj & Hb) & Hna & Hapi); [lia|].
                split; [exists j; split; [lia|exact Hb]|]. split; assumption.
        * (* unregistered and spliced out *)
          destruct (indexOf_found (accessories s) k x Hk)
            as (index & x' & Hidx & Hi & Href & _).
          destruct (NoDup_ref_lookup _ _ _ _ _ Hnds Hi Hk Href) as [-> ->].
          destruct (removeAccessory_removed x k s k) as (Ea & Eapi & Ec);
            [now rewrite Hcv|exact Hidx|].
          unfold Inv. rewrite Ea, Eapi, Ec.
          split; [exact Hc|]. split.
          { etransitivity; [apply sublist_delete|exact Hsub]. }
          destruct (decide (k < length pre)) as [Hlt|Hge].
          { exfalso. destruct Hlow as [Heq _]; [lia|].
            rewrite Heq, Hacc, lookup_app_l in Hk by lia.
            destruct (Hpre x) as [r Hr];
              [apply list_elem_of_lookup_2 with k, Hk|congruence]. }
          split; [intros; lia|]. intros _.
          destruct (decide (k = length pre)) as [->|Hne].
          -- destruct Hlow as [Heq Hapi]; [lia|].
             rewrite Heq, Hacc, lookup_app_r, Nat.sub_diag in Hk by lia.
             injection Hk as <-.
             assert (delete (length pre) (accessories s) = pre ++ b :: rest) as Hdel.
             { rewrite Heq, Hacc, delete_take_drop, take_app_length.
               rewrite drop_app_ge by lia.
               replace (S (length pre) - length pre) with 1 by lia. reflexivity. }
             rewrite Hdel. split; [|split].
             ++ exists (length pre). split; [lia|].
                rewrite lookup_app_r, Nat.sub_diag by lia. reflexivity.
             ++ exact Hnota.
             ++ apply elem_of_app. right. now constructor.
          -- destruct Hhigh as ((j & Hj & Hb) & Hna & Hapi); [lia|].
             split; [|split].
             ++ exists j. split; [lia|]. now rewrite list_lookup_delete_lt.
             ++ intros Hin. apply Hna. eapply list_elem_of_delete_inv, Hin.
             ++ apply elem_of_app. now left.
      + split; [exact Hc|]. split; [exact Hsub|]. split.
        * intros Hle. apply Hlow. lia.
        * intros Hlt. destruct (decide (k = length pre)) as [->|Hne].
          -- exfalso. destruct Hlow as [Heq _]; [lia|].
             rewrite Heq, Hacc, lookup_app_r, Nat.sub_diag in Hk by lia.
             discriminate.
          -- destruct Hhigh as ((j & Hj & Hb) & Hna & Hapi); [lia|].
             split; [exists j; split; [lia|exact Hb]|]. split; assumption.
    - split; [reflexivity|]. split; [reflexivity|]. split; [auto|intros; lia]. }
  destruct Hend as ((j & _ & Hb) & Hna & Hapi).
  { rewrite Hacc, length_app. simpl. lia. }
  split; [exact Hapi|]. split; [exact Hna|].
  apply list_elem_of_lookup_2 with j, Hb.
Qed.

(** X20 (the accessory after a removed one): in a run with a vehicle
    list, when the registered accessories are distinct objects, the
    first accessory whose VIN is not configured is unregistered and
    leaves the registry, and the accessory that followed it is not
    examined in that run: it stays registered, whether its VIN is
    configured or not. *)
Theorem addVehicles_skips_successor
    (generate : string -> string) (p : FordPassPlatform)
    (pre : list PlatformAccessory) (a b : PlatformAccessory)
    (post : list PlatformAccessory) :
  distinct_objects p ->
  is_Some (config p ≫= c_vehicles) ->
  accessories p = pre ++ a :: b :: post ->
  (forall x, x ∈ pre ->
     exists e, e ∈ config_vehicles p /\ toUpperCase (c_vin e) = context_vin x) ->
  (forall e, e ∈ config_vehicles p -> toUpperCase (c_vin e) <> context_vin a) ->
  (UnregisterPlatformAccessories a ∈ api (addVehicles generate p)) /\
  (a ∉ accessories (addVehicles generate p)) /\
  b ∈ accessories (addVehicles generate p).
Proof.
  intros Hd [l Hl] Hacc Hpre Ha. unfold addVehicles. rewrite Hl.
  pose proof (add_loop_config generate p) as Hcfg.
  pose proof (add_loop_distinct generate p Hd) as Hnd.
  destruct (add_trace_end generate p) as (added & Hadd & _).
  set (s1 := forEach config_vehicles (addVehicle generate) p) in *.
  apply (remove_loop_skips s1 pre a b (post ++ added) Hnd).
  - rewrite Hadd, Hacc, <- app_assoc. reflexivity.
  - intros x Hx. destruct (Hpre x Hx) as (e & He & Hv). rewrite Hcfg.
    apply list_find_elem_of with (normalised e);
      [now apply list_elem_of_fmap_2|exact Hv].
  - apply find_vin_None. intros e' He'. rewrite Hcfg in He'.
    apply list_elem_of_fmap in He' as (e & -> & He). now apply Ha.
Qed.

Lemma empty_lot_distinct : distinct_objects empty_lot.
Proof.
  split.
  - apply NoDup_cons. split; [|apply NoDup_singleton].
    intros H. apply list_elem_of_singleton in H. discriminate.
  - repeat constructor.
Defined.

Lemma addVehicles_skips_successor_witness :
  (UnregisterPlatformAccessories mustang
     ∈ api (addVehicles sample_generate empty_lot)) /\
  (mustang ∉ accessories (addVehicles sample_generate empty_lot)) /\
  bronco ∈ accessories (addVehicles sample_generate empty_lot).
Proof.
  apply (addVehicles_skips_successor sample_generate empty_lot [] mustang bronco []).
  - exact empty_lot_distinct.
  - eexists. reflexivity.
  - reflexivity.
  - intros x Hx. now apply elem_of_nil in Hx.
  - intros e He. now apply elem_of_nil in He.
Defined.
